(** * rwlock: a reentrant, writer-biased reader-writer lock

    Shallow embedding of [rwlock/rwlock.py]: the lock core [_RWLockCore]
    (state, waiting, owning, guarded by one condition variable), its wait
    loop, and the timeout translation of the handle facade.

    The calling thread is an explicit argument [me] (the value of
    [get_ident()]).  Everything a call does while it holds the monitor is a
    function of the core; what the other threads do while the caller has
    given the monitor up (inside [cond.wait], and between the two monitor
    sections of [_acquire_restore]) is read from a schedule [others] carried
    by the world, and [time.time()] reads a clock carried by the world.
    Durations are rationals: the code only adds, subtracts and compares
    them. *)

From Stdlib Require Import ZArith QArith List String Bool Lia Lqa.
From Stdlib Require Import Permutation.
Import ListNotations.
Local Open Scope Z_scope.

(* ================================================================= *)
(** ** Data model *)

(** Thread identities, as returned by [get_ident()]. *)
Definition ident := Z.

(** The fields of [_RWLockCore] other than the condition variable. *)
Record LockCore := mkCore {
  state : Z;            (* positive is shared count, negative exclusive count *)
  waiting : Z;
  owning : list ident
}.

(** [_RWLockCore.__init__] *)
Definition init_core : LockCore :=
  {| state := 0; waiting := 0; owning := [] |}.

Inductive exn :=
| RuntimeError (msg : string)
| ValueError (msg : string).

(** How a call ends: it returns, it raises, or it has not come back within
    the number of wake-ups that were observed ([Pending]). *)
Inductive outcome (A : Type) :=
| Return (a : A)
| Raise (e : exn)
| Pending.
Arguments Return {A} a.
Arguments Raise {A} e.
Arguments Pending {A}.

(** What the caller does to the condition variable, and each call of the
    predicate handed to [wait_for]; most recent first. *)
Inductive event :=
| EvPredicate
| EvWait (timeout : option Q)
| EvNotifyAll.

Record World := mkWorld {
  core : LockCore;
  clock : nat -> Q;                      (* successive values of time.time() *)
  ticks : nat;                           (* how many were read so far *)
  others : nat -> LockCore -> LockCore;  (* what the other threads do each
                                            time the caller gives the monitor up *)
  sched : nat;                           (* how many times it did so far *)
  trace : list event
}.

(* ================================================================= *)
(** ** Two small monads: under the monitor, and around it *)

(** Code that runs with the monitor held only touches the core. *)
Definition C (A : Type) := LockCore -> outcome A * LockCore.

Definition M (A : Type) := World -> outcome A * World.

Definition ret {A} (a : A) : M A := fun w => (Return a, w).

Definition raise {A} (e : exn) : M A := fun w => (Raise e, w).

Definition pending {A} : M A := fun w => (Pending, w).

Definition bind {A B} (m : M A) (k : A -> M B) : M B :=
  fun w =>
    match m w with
    | (Return a, w') => k a w'
    | (Raise e, w') => (Raise e, w')
    | (Pending, w') => (Pending, w')
    end.

Declare Scope rw_scope.
Delimit Scope rw_scope with rw.
Notation "x <- m ;; k" := (bind m (fun x => k))
  (at level 100, m at next level, right associativity) : rw_scope.
Notation "m ;; k" := (bind m (fun _ => k))
  (at level 100, right associativity) : rw_scope.
Local Open Scope rw_scope.

Definition set_core (c : LockCore) (w : World) : World :=
  {| core := c; clock := clock w; ticks := ticks w;
     others := others w; sched := sched w; trace := trace w |}.

Definition get_core : M LockCore := fun w => (Return (core w), w).

Definition put_core (c : LockCore) : M unit := fun w => (Return tt, set_core c w).

Definition lift {A} (p : C A) : M A :=
  fun w => let (r, c) := p (core w) in (r, set_core c w).

Definition log (e : event) : M unit :=
  fun w => (Return tt,
            {| core := core w; clock := clock w; ticks := ticks w;
               others := others w; sched := sched w; trace := e :: trace w |}).

(** [time.time()] *)
Definition time_time : M Q :=
  fun w => (Return (clock w (ticks w)),
            {| core := core w; clock := clock w; ticks := S (ticks w);
               others := others w; sched := sched w; trace := trace w |}).

(** The caller does not hold the monitor: the other threads run. *)
Definition yield : M unit :=
  fun w => (Return tt,
            {| core := others w (sched w) (core w); clock := clock w;
               ticks := ticks w; others := others w; sched := S (sched w);
               trace := trace w |}).

(** [self.cond.wait(waittime)]: gives the monitor up and takes it again.
    When it comes back is up to the condition variable; the model lets it
    come back after any step of the others. *)
Definition cond_wait (waittime : option Q) : M unit :=
  log (EvWait waittime) ;; yield.

(** [self.cond.notify_all()] *)
Definition notify_all : M unit := log EvNotifyAll.

(** [with self.cond: body]; the body is one monitor section. *)
Definition with_cond {A} (body : M A) : M A := body.

(** [try: body finally: cleanup].  A body that has not come back has not
    reached its [finally] either. *)
Definition try_finally {A} (body : M A) (cleanup : M unit) : M A :=
  fun w =>
    match body w with
    | (Pending, w') => (Pending, w')
    | (r, w') =>
        match cleanup w' with
        | (Return _, w'') => (r, w'')
        | (Raise e, w'') => (Raise e, w'')
        | (Pending, w'') => (Pending, w'')
        end
    end.

(* ================================================================= *)
(** ** List operations of the source *)

(** [x in l] *)
Definition contains (x : ident) (l : list ident) : bool :=
  existsb (Z.eqb x) l.

(** [l.remove(x)]: drops the first item equal to [x]; [None] is Python's
    [ValueError]. *)
Fixpoint list_remove (x : ident) (l : list ident) : option (list ident) :=
  match l with
  | [] => None
  | y :: l' =>
      if y =? x then Some l'
      else match list_remove x l' with
           | Some r => Some (y :: r)
           | None => None
           end
  end.

(* ================================================================= *)
(** ** The admission predicates *)

(** [_RWLockCore._acquire_write] *)
Definition _acquire_write (me : ident) : C bool :=
  fun c =>
    if (state c =? 0) || ((state c <? 0) && contains me (owning c)) then
      (Return true,
       {| state := state c - 1; waiting := waiting c;
          owning := owning c ++ [me] |})
    else if (0 <? state c) && contains me (owning c) then
      (Raise (RuntimeError "cannot upgrade RWLock from read to write"), c)
    else (Return false, c).

(** [_RWLockCore._acquire_read] *)
Definition _acquire_read (me : ident) : C bool :=
  fun c =>
    if state c <? 0 then _acquire_write me c
    else
      let ok := if waiting c =? 0 then true else contains me (owning c) in
      if ok then
        (Return true,
         {| state := state c + 1; waiting := waiting c;
            owning := owning c ++ [me] |})
      else (Return false, c).

(* ================================================================= *)
(** ** The wait loop *)

Definition Qltb (x y : Q) : bool := negb (Qle_bool y x).

(** Calling the predicate handed to [wait_for]. *)
Definition call (predicate : C bool) : M bool :=
  log EvPredicate ;; lift predicate.

(** The top of the loop body of [wait_for]: either [break], or the
    [endtime] and [waittime] to go on with. *)
Inductive loop_ctl :=
| Break
| Wait (endtime waittime : option Q).

Definition deadline (endtime waittime : option Q) : M loop_ctl :=
  match waittime with
  | None => ret (Wait endtime None)
  | Some wt =>
      match endtime with
      | None =>
          now <- time_time ;;
          ret (Wait (Some (now + wt)%Q) (Some wt))
      | Some e =>
          now <- time_time ;;
          let wt' := (e - now)%Q in
          if Qle_bool wt' 0 then ret Break
          else ret (Wait (Some e) (Some wt'))
      end
  end.

(** The [while not result] loop, entered with [result] false.  [fuel] bounds
    the number of times the loop body is entered. *)
Fixpoint wait_loop (fuel : nat) (predicate : C bool)
    (endtime waittime : option Q) : M bool :=
  match fuel with
  | O => pending
  | S fuel' =>
      ctl <- deadline endtime waittime ;;
      match ctl with
      | Break => ret false
      | Wait endtime' waittime' =>
          cond_wait waittime' ;;
          result <- call predicate ;;
          if result then ret true
          else wait_loop fuel' predicate endtime' waittime'
      end
  end.

(** [_RWLockCore.wait_for] *)
Definition wait_for (fuel : nat) (predicate : C bool) (timeout : option Q)
    : M bool :=
  result <- call predicate ;;
  if result then ret true
  else wait_loop fuel predicate None timeout.

(* ================================================================= *)
(** ** The operations of the core *)

Definition add_waiting (d : Z) (c : LockCore) : LockCore :=
  {| state := state c; waiting := waiting c + d; owning := owning c |}.

(** [_RWLockCore.acquire_read] *)
Definition acquire_read (fuel : nat) (me : ident) (timeout : option Q)
    : M bool :=
  with_cond (wait_for fuel (_acquire_read me) timeout).

(** [_RWLockCore.acquire_write] *)
Definition acquire_write (fuel : nat) (me : ident) (timeout : option Q)
    : M bool :=
  with_cond (
    c <- get_core ;;
    put_core (add_waiting 1 c) ;;
    try_finally
      (wait_for fuel (_acquire_write me) timeout)
      (c' <- get_core ;; put_core (add_waiting (-1) c'))).

(** [_RWLockCore.release] *)
Definition release (me : ident) : M unit :=
  with_cond (
    c <- get_core ;;
    match list_remove me (owning c) with
    | None => raise (RuntimeError "cannot release an un-acquired lock")
    | Some rest =>
        let st := if 0 <? state c then state c - 1 else state c + 1 in
        put_core {| state := st; waiting := waiting c; owning := rest |} ;;
        if st =? 0 then notify_all else ret tt
    end).

(** [_RWLockCore._is_owned] *)
Definition _is_owned (me : ident) (c : LockCore) : bool :=
  (state c <? 0) && contains me (owning c).

(** [_RWLockCore._release_save].  The returned list is the object that was
    [self.owning]; the core gets a fresh empty list, so nothing the core does
    afterwards reaches the token. *)
Definition _release_save (me : ident) : M (list ident) :=
  with_cond (
    c <- get_core ;;
    if negb (contains me (owning c)) then
      raise (RuntimeError "cannot release an un-acquired lock")
    else
      let r := owning c in
      put_core {| state := 0; waiting := waiting c; owning := [] |} ;;
      notify_all ;;
      ret r).

(** [_RWLockCore._acquire_restore]: two monitor sections, the first inside
    [acquire_write]; the other threads may run in between. *)
Definition _acquire_restore (fuel : nat) (me : ident) (x : list ident)
    : M unit :=
  _ <- acquire_write fuel me None ;;
  yield ;;
  with_cond (
    c <- get_core ;;
    put_core {| state := - Z.of_nat (List.length x); waiting := waiting c;
                owning := x |}).

(* ================================================================= *)
(** ** The handle facade: timeout translation *)

(** [_ReaderLock._timeout] *)
Definition _timeout (blocking : bool) (timeout : Q) : outcome (option Q) :=
  if Qltb timeout 0 && negb (Qeq_bool timeout (-1)) then
    Raise (ValueError "invalid timeout")
  else if blocking then
    Return (if Qle_bool 0 timeout then Some timeout else None)
  else if Qltb 0 timeout then
    Raise (ValueError "can't specify a timeout when non-blocking")
  else Return (Some 0%Q).

(* ================================================================= *)
(** ** The handle facade: the two lock objects *)

(** A value or an exception computed before the core is entered. *)
Definition of_outcome {A} (r : outcome A) : M A := fun w => (r, w).

(** The two views of one core: [_ReaderLock] and its subclass
    [_WriterLock]. *)
Inductive handle :=
| _ReaderLock
| _WriterLock.

(** [_ReaderLock.acquire] and [_WriterLock.acquire]: the argument
    [self._timeout(blocking, timeout)] is computed first. *)
Definition acquire (fuel : nat) (h : handle) (me : ident) (blocking : bool)
    (timeout : Q) : M bool :=
  t <- of_outcome (_timeout blocking timeout) ;;
  match h with
  | _ReaderLock => acquire_read fuel me t
  | _WriterLock => acquire_write fuel me t
  end.

(** [_ReaderLock.__enter__]: [self.acquire()], that is [blocking=True] and
    [timeout=-1], on the handle it is called on; the answer is dropped. *)
Definition __enter__ (fuel : nat) (h : handle) (me : ident) : M unit :=
  _ <- acquire fuel h me true (-1) ;; ret tt.

(** [_ReaderLock.__exit__]: [self.release()], whatever the body did; it
    returns [None], so an exception of the body goes on. *)
Definition __exit__ (me : ident) : M unit := release me.

(** [with handle: body].  When [__enter__] raises, neither the body nor
    [__exit__] runs. *)
Definition with_lock {A} (fuel : nat) (h : handle) (me : ident) (body : M A)
    : M A :=
  __enter__ fuel h me ;; try_finally body (__exit__ me).

(* ================================================================= *)
(** ** Calls as data *)

(** The five operations of the core that change it. *)
Inductive op :=
| AcquireRead (timeout : option Q)
| AcquireWrite (timeout : option Q)
| Release
| ReleaseSave
| AcquireRestore (x : list ident).

Inductive value :=
| VNone
| VBool (b : bool)
| VToken (x : list ident).

Definition run (fuel : nat) (me : ident) (o : op) : M value :=
  match o with
  | AcquireRead timeout => b <- acquire_read fuel me timeout ;; ret (VBool b)
  | AcquireWrite timeout => b <- acquire_write fuel me timeout ;; ret (VBool b)
  | Release => release me ;; ret VNone
  | ReleaseSave => x <- _release_save me ;; ret (VToken x)
  | AcquireRestore x => _acquire_restore fuel me x ;; ret VNone
  end.

(** [n] calls of [release] in a row by the same thread. *)
Fixpoint release_times (n : nat) (me : ident) : M unit :=
  match n with
  | O => ret tt
  | S n' => release me ;; release_times n' me
  end.

(* ================================================================= *)
(** ** The invariant of the data model *)

(** All entries name one thread. *)
Definition same_thread (l : list ident) : Prop :=
  forall x y, In x l -> In y l -> x = y.

Definition Inv (c : LockCore) : Prop :=
  (0 < state c -> Z.of_nat (List.length (owning c)) = state c) /\
  (state c < 0 ->
     Z.of_nat (List.length (owning c)) = - state c /\ same_thread (owning c)) /\
  (state c = 0 -> owning c = []) /\
  0 <= waiting c.

Definition same_thread_b (l : list ident) : bool :=
  match l with
  | [] => true
  | t :: r => forallb (Z.eqb t) r
  end.

(** The invariant as a test. *)
Definition inv_b (c : LockCore) : bool :=
  (Z.of_nat (List.length (owning c)) =? Z.abs (state c))
  && ((0 <=? state c) || same_thread_b (owning c))
  && (0 <=? waiting c).

(** A token [_acquire_restore] can take without breaking the invariant. *)
Definition token_ok (o : op) : Prop :=
  match o with
  | AcquireRestore x => same_thread x
  | _ => True
  end.

(* ================================================================= *)
(** ** Callers *)

(** Calls of several threads one after the other; each call is left where
    it ended. *)
Fixpoint run_calls (fuel : nat) (calls : list (ident * op)) (w : World)
    : World :=
  match calls with
  | [] => w
  | (me, o) :: rest => run_calls fuel rest (snd (run fuel me o w))
  end.

(** The threads of a list take the read lock in turn, without timeout. *)
Fixpoint readers_enter (fuel : nat) (threads : list ident) : M bool :=
  match threads with
  | [] => ret true
  | me :: rest =>
      b <- acquire_read fuel me None ;;
      if b then readers_enter fuel rest else ret false
  end.

(** One thread takes the write lock [n] times in a row. *)
Fixpoint write_times (fuel : nat) (n : nat) (me : ident)
    (timeout : option Q) : M bool :=
  match n with
  | O => ret true
  | S n' =>
      b <- acquire_write fuel me timeout ;;
      if b then write_times fuel n' me timeout else ret false
  end.

(* ================================================================= *)
(** ** The other threads *)

(** What is assumed of the other threads: each of their steps keeps the
    invariant, and none takes away from [waiting] the unit that the caller
    itself has added to it. *)
Definition Rely (w : World) : Prop :=
  forall i c, Inv c ->
    Inv (others w i c) /\ (1 <= waiting c -> 1 <= waiting (others w i c)).

(** No other thread does anything. *)
Definition quiet (w : World) : Prop :=
  forall i c, others w i c = c.

(** Each step of the other threads keeps the invariant. *)
Definition others_keep_invariant (w : World) : Prop :=
  forall i c, Inv c -> Inv (others w i c).

(** The steps of the others numbered [i0] to [i1] (excluded) do not take
    out of [waiting] the unit of a caller that waits inside
    [acquire_write]. *)
Definition others_keep_unit (w : World) (i0 i1 : nat) : Prop :=
  forall i c, (i0 <= i < i1)%nat ->
    Inv c -> 1 <= waiting c -> 1 <= waiting (others w i c).

(** The step of the others at which the stay of a call inside
    [acquire_write] is over: from [sched w] to there the caller's unit is in
    [waiting].  A call that does not go through [acquire_write] has no such
    steps. *)
Definition write_wait_end (fuel : nat) (me : ident) (o : op) (w : World)
    : nat :=
  match o with
  | AcquireWrite timeout => sched (snd (acquire_write fuel me timeout w))
  | AcquireRestore _ => sched (snd (acquire_write fuel me None w))
  | _ => sched w
  end.

(** [others_keep_unit] for each call of a sequence, over the steps during
    which that call is inside [acquire_write]. *)
Fixpoint others_keep_units (fuel : nat) (calls : list (ident * op))
    (w : World) : Prop :=
  match calls with
  | [] => True
  | (me, o) :: rest =>
      others_keep_unit w (sched w) (write_wait_end fuel me o w) /\
      others_keep_units fuel rest (snd (run fuel me o w))
  end.

(** [n] steps of the others, from step [i] on. *)
Fixpoint run_others (f : nat -> LockCore -> LockCore) (i n : nat)
    (c : LockCore) : LockCore :=
  match n with
  | O => c
  | S n' => run_others f (S i) n' (f i c)
  end.

(** What the others did to a core [c] between two worlds of one call. *)
Definition others_ran (w w' : World) (c : LockCore) : LockCore :=
  run_others (others w) (sched w) (sched w' - sched w)%nat c.

(** The events a call added. *)
Definition added (w w' : World) (evs : list event) : Prop :=
  trace w' = evs ++ trace w.

(* ================================================================= *)
(** ** Worlds to run the model on *)

(** A world in which the caller is alone and the clock advances by one
    second at each reading. *)
Definition alone (c : LockCore) : World :=
  {| core := c; clock := fun n => inject_Z (Z.of_nat n); ticks := 0%nat;
     others := fun _ c' => c'; sched := 0%nat; trace := [] |}.

(** Thread 2 releases the lock the first time the caller gives the
    monitor up. *)
Definition release_by_2 (i : nat) (c : LockCore) : LockCore :=
  match i with
  | O => core (snd (release 2 (alone c)))
  | S _ => c
  end.

Definition with_thread_2 (c : LockCore) : World :=
  {| core := c; clock := fun n => inject_Z (Z.of_nat n); ticks := 0%nat;
     others := release_by_2; sched := 0%nat; trace := [] |}.

(** A writer that was waiting gives up: its unit leaves [waiting]. *)
Definition writer_gives_up (c : LockCore) : LockCore :=
  {| state := state c; waiting := Z.max 0 (waiting c - 1);
     owning := owning c |}.

(** A waiting writer gives up the first time the caller gives the monitor
    up. *)
Definition with_leaving_writer (c : LockCore) : World :=
  {| core := c; clock := fun n => inject_Z (Z.of_nat n); ticks := 0%nat;
     others := fun i c' => match i with
                           | O => writer_gives_up c'
                           | S _ => c'
                           end;
     sched := 0%nat; trace := [] |}.

(** The statement of the spec on an expired timeout, to compare with
    [wait_for]: one call of the predicate, no wait. *)
Definition single_check (predicate : C bool) (w : World) : Prop :=
  let w' := snd (wait_for 2 predicate (Some 0%Q) w) in
  added w w' [EvPredicate].

(** The statement of the spec on the errors of the timeout translation, to
    compare with [_timeout]. *)
Definition is_raise {A} (r : outcome A) : bool :=
  match r with
  | Raise _ => true
  | _ => false
  end.

Definition spec_invalid_timeout (blocking : bool) (timeout : Q) : Prop :=
  (timeout < -1)%Q \/ ((0 < timeout)%Q /\ blocking = false).

(** Whatever a predicate answers other than [True], it has left the core
    alone. *)
Definition leaves_alone (p : C bool) : Prop :=
  forall c r c', p c = (r, c') -> r <> Return true -> c' = c.

(** Unfolding the plumbing of the two monads. *)
Ltac run_monad :=
  unfold with_cond, call, cond_wait, notify_all, bind, ret, raise, pending,
    get_core, put_core, lift, log, set_core; simpl.

(* ================================================================= *)
(** * Properties *)

(** ** Lists and tests *)

Lemma contains_In (x : ident) (l : list ident) :
  contains x l = true <-> In x l.
Proof.
  unfold contains. rewrite existsb_exists. split.
  - intros [y [Hy Heq]]. apply Z.eqb_eq in Heq. now subst.
  - intros H. exists x. split; [assumption | apply Z.eqb_refl].
Qed.

Lemma contains_not_In (x : ident) (l : list ident) :
  contains x l = false <-> ~ In x l.
Proof.
  rewrite <- contains_In. destruct (contains x l); split; congruence.
Qed.

Lemma list_remove_None (x : ident) (l : list ident) :
  list_remove x l = None <-> ~ In x l.
Proof.
  induction l as [|y l IH]; simpl.
  - tauto.
  - destruct (Z.eqb_spec y x) as [->|Hne].
    + split; [discriminate | intros H; exfalso; apply H; now left].
    + destruct (list_remove x l) eqn:E.
      * split; [discriminate|]. intros H. exfalso.
        assert (Hin : ~ In x l) by tauto.
        apply IH in Hin. discriminate.
      * split; [|reflexivity]. intros _ [Heq|Hin]; [congruence|].
        now apply IH.
Qed.

(** [list.remove] takes out the first occurrence and nothing else. *)
Lemma list_remove_Some (x : ident) (l r : list ident) :
  list_remove x l = Some r ->
  exists l1 l2, l = l1 ++ x :: l2 /\ r = l1 ++ l2 /\ ~ In x l1.
Proof.
  revert r. induction l as [|y l IH]; simpl; intros r H.
  - discriminate.
  - destruct (Z.eqb_spec y x) as [->|Hne].
    + injection H as <-. exists [], l. simpl. tauto.
    + destruct (list_remove x l) as [r'|] eqn:E; [|discriminate].
      injection H as <-.
      destruct (IH r' eq_refl) as [l1 [l2 [-> [-> Hl1]]]].
      exists (y :: l1), l2. simpl. repeat split; try reflexivity.
      intros [Heq|Hin]; [congruence | contradiction].
Qed.

Lemma list_remove_In (x : ident) (l : list ident) :
  In x l -> exists r, list_remove x l = Some r.
Proof.
  intros Hin. destruct (list_remove x l) as [r|] eqn:E.
  - now exists r.
  - apply list_remove_None in E. contradiction.
Qed.

Lemma Qltb_lt (x y : Q) : Qltb x y = true <-> (x < y)%Q.
Proof.
  unfold Qltb. rewrite negb_true_iff. split.
  - intros H. apply Qnot_le_lt. intros Hle.
    apply Qle_bool_iff in Hle. congruence.
  - intros H. destruct (Qle_bool y x) eqn:E; [|reflexivity].
    apply Qle_bool_iff in E. exfalso. exact (Qlt_not_le _ _ H E).
Qed.

Lemma Qltb_ge (x y : Q) : Qltb x y = false <-> (y <= x)%Q.
Proof.
  unfold Qltb. rewrite negb_false_iff. apply Qle_bool_iff.
Qed.

Lemma add_waiting_cancel (c : LockCore) :
  add_waiting (-1) (add_waiting 1 c) = c.
Proof.
  destruct c as [s wt o]. unfold add_waiting. simpl. f_equal. lia.
Qed.

(* ================================================================= *)
(** ** The predicates, case by case *)

Lemma _acquire_write_free (me : ident) (c : LockCore) :
  state c = 0 ->
  _acquire_write me c =
    (Return true,
     {| state := state c - 1; waiting := waiting c; owning := owning c ++ [me] |}).
Proof.
  intros H. unfold _acquire_write. rewrite H. reflexivity.
Qed.

Lemma _acquire_write_recursive (me : ident) (c : LockCore) :
  state c < 0 -> In me (owning c) ->
  _acquire_write me c =
    (Return true,
     {| state := state c - 1; waiting := waiting c; owning := owning c ++ [me] |}).
Proof.
  intros Hs Hin. unfold _acquire_write.
  apply contains_In in Hin. rewrite Hin.
  apply Z.ltb_lt in Hs. rewrite Hs. rewrite orb_true_r. reflexivity.
Qed.

Lemma _acquire_write_upgrade (me : ident) (c : LockCore) :
  0 < state c -> In me (owning c) ->
  _acquire_write me c =
    (Raise (RuntimeError "cannot upgrade RWLock from read to write"), c).
Proof.
  intros Hs Hin. unfold _acquire_write.
  apply contains_In in Hin. rewrite Hin.
  replace (state c =? 0) with false by (symmetry; apply Z.eqb_neq; lia).
  replace (state c <? 0) with false by (symmetry; apply Z.ltb_ge; lia).
  replace (0 <? state c) with true by (symmetry; apply Z.ltb_lt; lia).
  reflexivity.
Qed.

Lemma _acquire_write_busy (me : ident) (c : LockCore) :
  state c <> 0 -> ~ In me (owning c) ->
  _acquire_write me c = (Return false, c).
Proof.
  intros Hs Hin. unfold _acquire_write.
  apply contains_not_In in Hin. rewrite Hin.
  replace (state c =? 0) with false by (symmetry; apply Z.eqb_neq; lia).
  now rewrite !andb_false_r.
Qed.

Lemma _acquire_write_leaves_alone (me : ident) :
  leaves_alone (_acquire_write me).
Proof.
  intros c r c'. unfold _acquire_write.
  destruct ((state c =? 0) || ((state c <? 0) && contains me (owning c)));
    [|destruct ((0 <? state c) && contains me (owning c))];
    intros H Hr; injection H as <- <-; congruence.
Qed.

Lemma _acquire_read_leaves_alone (me : ident) :
  leaves_alone (_acquire_read me).
Proof.
  intros c r c'. unfold _acquire_read.
  destruct (state c <? 0); [apply _acquire_write_leaves_alone|].
  destruct (if waiting c =? 0 then true else contains me (owning c));
    intros H Hr; injection H as <- <-; congruence.
Qed.

(* ================================================================= *)
(** ** The wait loop *)

Lemma deadline_frame (e t : option Q) (w : World) :
  exists ctl w1,
    deadline e t w = (Return ctl, w1) /\
    core w1 = core w /\ sched w1 = sched w /\ others w1 = others w /\
    clock w1 = clock w /\ trace w1 = trace w.
Proof.
  unfold deadline. destruct t as [wt|]; [destruct e as [e|]|].
  - run_monad. unfold time_time.
    destruct (Qle_bool (e - clock w (ticks w)) 0);
      eexists; eexists; (split; [reflexivity|]); simpl; auto.
  - run_monad. unfold time_time.
    eexists; eexists; (split; [reflexivity|]); simpl; auto.
  - run_monad. eexists; eexists; (split; [reflexivity|]); auto.
Qed.

Lemma call_eq (p : C bool) (w : World) :
  call p w =
    (fst (p (core w)),
     {| core := snd (p (core w)); clock := clock w; ticks := ticks w;
        others := others w; sched := sched w;
        trace := EvPredicate :: trace w |}).
Proof.
  run_monad. destruct (p (core w)); reflexivity.
Qed.

Lemma cond_wait_eq (t : option Q) (w : World) :
  cond_wait t w =
    (Return tt,
     {| core := others w (sched w) (core w); clock := clock w;
        ticks := ticks w; others := others w; sched := S (sched w);
        trace := EvWait t :: trace w |}).
Proof. reflexivity. Qed.

Lemma run_others_snoc (f : nat -> LockCore -> LockCore) (i n : nat)
    (c : LockCore) :
  run_others f i (S n) c = run_others f (S i) n (f i c).
Proof. reflexivity. Qed.

Lemma run_others_quiet (f : nat -> LockCore -> LockCore) (i n : nat)
    (c : LockCore) :
  (forall j c', f j c' = c') -> run_others f i n c = c.
Proof.
  intros Hq. revert i c. induction n as [|n IH]; intros i c; simpl.
  - reflexivity.
  - rewrite Hq. apply IH.
Qed.

(** The loop of [wait_for] only changes the core through the steps of the
    others and through the one call of the predicate that answers [True]. *)
Lemma wait_loop_spec (p : C bool) (Hp : leaves_alone p) (fuel : nat) :
  forall e t w r w',
    wait_loop fuel p e t w = (r, w') ->
    others w' = others w /\ clock w' = clock w /\
    exists n,
      sched w' = (sched w + n)%nat /\
      let c := run_others (others w) (sched w) n (core w) in
      (r = Return true -> p c = (Return true, core w')) /\
      (r <> Return true -> core w' = c).
Proof.
  induction fuel as [|fuel IH]; intros e t w r w' H.
  - injection H as <- <-. repeat split. exists 0%nat. simpl.
    rewrite Nat.add_0_r. repeat split; congruence.
  - simpl in H. unfold bind in H at 1.
    destruct (deadline_frame e t w)
      as [ctl [w1 [Hd [Hc1 [Hs1 [Ho1 [Hk1 _]]]]]]].
    rewrite Hd in H. destruct ctl as [|e' t'].
    + injection H as <- <-. repeat split; try assumption.
      exists 0%nat. simpl. rewrite Nat.add_0_r.
      repeat split; congruence.
    + unfold bind in H at 1. rewrite cond_wait_eq in H.
      unfold bind in H at 1. rewrite call_eq in H. simpl in H.
      rewrite Hc1, Hs1, Ho1 in H.
      destruct (p (others w (sched w) (core w))) as [r2 c3] eqn:Ep.
      simpl in H. destruct r2 as [[|]| |].
      * injection H as <- <-. simpl. repeat split; try assumption.
        exists 1%nat. simpl. split; [lia|]. split; [|congruence].
        intros _. exact Ep.
      * apply IH in H. simpl in H.
        destruct H as [Ho [Hk [n [Hs [Ht Hf]]]]].
        assert (c3 = others w (sched w) (core w)) as ->
            by (eapply Hp; [exact Ep | discriminate]).
        repeat split; try congruence.
        exists (S n). split; [lia|]. simpl. split; assumption.
      * injection H as <- <-. simpl. repeat split; try assumption.
        exists 1%nat. simpl. split; [lia|]. split; [discriminate|].
        intros _. eapply Hp; [exact Ep | discriminate].
      * injection H as <- <-. simpl. repeat split; try assumption.
        exists 1%nat. simpl. split; [lia|]. split; [discriminate|].
        intros _. eapply Hp; [exact Ep | discriminate].
Qed.

Lemma wait_for_spec (p : C bool) (Hp : leaves_alone p) (fuel : nat)
    (t : option Q) (w : World) (r : outcome bool) (w' : World) :
  wait_for fuel p t w = (r, w') ->
  others w' = others w /\ clock w' = clock w /\
  exists n,
    sched w' = (sched w + n)%nat /\
    let c := run_others (others w) (sched w) n (core w) in
    (r = Return true -> p c = (Return true, core w')) /\
    (r <> Return true -> core w' = c).
Proof.
  unfold wait_for. unfold bind at 1. rewrite call_eq.
  destruct (p (core w)) as [r1 c1] eqn:Ep. simpl.
  destruct r1 as [[|]| |]; intros H.
  - injection H as <- <-. simpl. repeat split.
    exists 0%nat. simpl. rewrite Nat.add_0_r.
    split; [reflexivity|]. split; [intros _; exact Ep | congruence].
  - assert (c1 = core w) as -> by (eapply Hp; [exact Ep | discriminate]).
    apply (wait_loop_spec p Hp) in H. simpl in H. exact H.
  - injection H as <- <-. simpl. repeat split.
    exists 0%nat. simpl. rewrite Nat.add_0_r.
    split; [reflexivity|]. split; [discriminate|].
    intros _. eapply Hp; [exact Ep | discriminate].
  - injection H as <- <-. simpl. repeat split.
    exists 0%nat. simpl. rewrite Nat.add_0_r.
    split; [reflexivity|]. split; [discriminate|].
    intros _. eapply Hp; [exact Ep | discriminate].
Qed.

Lemma try_finally_eq {A} (body : M A) (w : World) :
  try_finally body (c' <- get_core ;; put_core (add_waiting (-1) c')) w =
    match body w with
    | (Pending, w') => (Pending, w')
    | (r, w') => (r, set_core (add_waiting (-1) (core w')) w')
    end.
Proof.
  unfold try_finally. destruct (body w) as [[a|e|] w']; reflexivity.
Qed.

(** [acquire_write]: the caller's unit is in [waiting] for as long as the
    call is inside [wait_for], and is taken out again when it leaves. *)
Lemma acquire_write_spec (fuel : nat) (me : ident) (t : option Q)
    (w : World) (r : outcome bool) (w' : World) :
  acquire_write fuel me t w = (r, w') ->
  others w' = others w /\
  exists n,
    sched w' = (sched w + n)%nat /\
    let c := run_others (others w) (sched w) n (add_waiting 1 (core w)) in
    (r = Return true ->
       exists c', _acquire_write me c = (Return true, c') /\
                  core w' = add_waiting (-1) c') /\
    (r = Pending -> core w' = c) /\
    (r <> Return true -> r <> Pending -> core w' = add_waiting (-1) c).
Proof.
  unfold acquire_write, with_cond.
  unfold bind at 1, get_core. unfold bind at 1, put_core.
  rewrite try_finally_eq.
  destruct (wait_for fuel (_acquire_write me) t
              (set_core (add_waiting 1 (core w)) w)) as [r1 w1] eqn:E.
  apply (wait_for_spec _ (_acquire_write_leaves_alone me)) in E.
  simpl in E. destruct E as [Ho [_ [n [Hs [Ht Hf]]]]].
  intros H.
  assert (Hr : r = r1) by (destruct r1; congruence).
  subst r1.
  destruct r as [[|]|e|].
  - injection H as <-. simpl. split; [assumption|].
    exists n. split; [assumption|]. split; [|split; congruence].
    intros _. exists (core w1). split; [now apply Ht | reflexivity].
  - injection H as <-. simpl. split; [assumption|].
    exists n. split; [assumption|].
    split; [discriminate|]. split; [discriminate|].
    intros _ _. now rewrite Hf by discriminate.
  - injection H as <-. simpl. split; [assumption|].
    exists n. split; [assumption|].
    split; [discriminate|]. split; [discriminate|].
    intros _ _. now rewrite Hf by discriminate.
  - injection H as <-. split; [assumption|].
    exists n. split; [assumption|].
    split; [discriminate|]. split; [|congruence].
    intros _. now apply Hf.
Qed.

(* ================================================================= *)
(** ** The invariant, step by step *)

Lemma same_thread_b_spec (l : list ident) :
  same_thread_b l = true <-> same_thread l.
Proof.
  unfold same_thread. destruct l as [|t r]; simpl.
  - split; [intros _ x y [] | reflexivity].
  - rewrite forallb_forall. split.
    + intros H x y Hx Hy.
      assert (Ht : forall z, t = z \/ In z r -> z = t).
      { intros z [Hz|Hz]; [now subst|].
        apply H in Hz. apply Z.eqb_eq in Hz. now subst. }
      rewrite (Ht x Hx), (Ht y Hy). reflexivity.
    + intros H z Hz. apply Z.eqb_eq. apply H; [now left | now right].
Qed.

Lemma inv_b_spec (c : LockCore) : inv_b c = true <-> Inv c.
Proof.
  unfold inv_b, Inv. rewrite !andb_true_iff, orb_true_iff.
  rewrite Z.eqb_eq, !Z.leb_le, same_thread_b_spec. split.
  - intros [[Hl Hs] Hw]. repeat split; try lia.
    + destruct Hs; [lia | assumption].
    + intros H0. rewrite H0 in Hl. simpl in Hl.
      apply length_zero_iff_nil. lia.
  - intros [Hp [Hn [Hz Hw]]]. repeat split; try assumption.
    + destruct (Z.lt_trichotomy (state c) 0) as [H|[H|H]].
      * destruct (Hn H). lia.
      * rewrite (Hz H), H. reflexivity.
      * rewrite (Hp H). lia.
    + destruct (Z.lt_ge_cases (state c) 0) as [H|H].
      * right. now destruct (Hn H).
      * left. assumption.
Qed.

Lemma same_thread_app (me : ident) (l : list ident) :
  same_thread l -> In me l -> same_thread (l ++ [me]).
Proof.
  intros Hs Hin x y Hx Hy.
  assert (Hm : forall z, In z (l ++ [me]) -> z = me).
  { intros z Hz. apply in_app_or in Hz. destruct Hz as [Hz|[Hz|[]]].
    - now apply Hs.
    - now subst. }
  rewrite (Hm x Hx), (Hm y Hy). reflexivity.
Qed.

Lemma same_thread_remove (l1 l2 : list ident) (x : ident) :
  same_thread (l1 ++ x :: l2) -> same_thread (l1 ++ l2).
Proof.
  intros Hs a b Ha Hb.
  apply Hs; apply in_or_app.
  - apply in_app_or in Ha. destruct Ha; [now left | right; now right].
  - apply in_app_or in Hb. destruct Hb; [now left | right; now right].
Qed.

Lemma _acquire_write_Inv (me : ident) (c c' : LockCore) :
  Inv c -> _acquire_write me c = (Return true, c') ->
  Inv c' /\ waiting c' = waiting c.
Proof.
  intros [Hp [Hn [Hz Hw]]]. unfold _acquire_write.
  destruct (Z.eqb_spec (state c) 0) as [H0|H0]; simpl.
  - intros H. injection H as <-. simpl. split; [|reflexivity].
    rewrite (Hz H0), H0. unfold Inv. simpl.
    repeat split; try lia.
    intros x y [<-|[]] [<-|[]]. reflexivity.
  - destruct (Z.ltb_spec (state c) 0) as [Hlt|Hge]; simpl.
    + destruct (contains me (owning c)) eqn:Ein; simpl.
      * intros H. injection H as <-. simpl. split; [|reflexivity].
        apply contains_In in Ein. destruct (Hn Hlt) as [Hlen Hsame].
        unfold Inv. simpl. rewrite length_app. simpl.
        repeat split; try lia.
        now apply same_thread_app.
      * destruct (0 <? state c); simpl; discriminate.
    + destruct ((0 <? state c) && contains me (owning c)); discriminate.
Qed.

Lemma _acquire_read_Inv (me : ident) (c c' : LockCore) :
  Inv c -> _acquire_read me c = (Return true, c') ->
  Inv c' /\ waiting c' = waiting c.
Proof.
  intros HI. unfold _acquire_read.
  destruct (Z.ltb_spec (state c) 0) as [Hlt|Hge].
  - now apply _acquire_write_Inv.
  - destruct (if waiting c =? 0 then true else contains me (owning c));
      [|discriminate].
    intros H. injection H as <-. simpl. split; [|reflexivity].
    destruct HI as [Hp [Hn [Hz Hw]]].
    unfold Inv. simpl. rewrite length_app. simpl.
    repeat split; try lia.
    intros _. destruct (Z.eq_dec (state c) 0) as [H0|H0].
    + rewrite (Hz H0), H0. reflexivity.
    + rewrite Nat2Z.inj_add, Hp by lia. reflexivity.
Qed.

Lemma add_waiting_Inv (d : Z) (c : LockCore) :
  Inv c -> 0 <= waiting c + d -> Inv (add_waiting d c).
Proof.
  intros [Hp [Hn [Hz Hw]]] Hd. unfold Inv, add_waiting. simpl.
  split; [exact Hp | split; [exact Hn | split; [exact Hz | exact Hd]]].
Qed.

Lemma run_others_Inv (f : nat -> LockCore -> LockCore) (n : nat) :
  (forall i c, Inv c -> Inv (f i c) /\ (1 <= waiting c -> 1 <= waiting (f i c))) ->
  forall i c, Inv c ->
    Inv (run_others f i n c) /\
    (1 <= waiting c -> 1 <= waiting (run_others f i n c)).
Proof.
  intros Hf. induction n as [|n IH]; intros i c HI; simpl.
  - split; [assumption | trivial].
  - destruct (Hf i c HI) as [HI' Hw'].
    destruct (IH (S i) (f i c) HI') as [HI'' Hw''].
    split; [assumption | auto].
Qed.

Lemma release_absent (me : ident) (w : World) :
  ~ In me (owning (core w)) ->
  release me w =
    (Raise (RuntimeError "cannot release an un-acquired lock"), w).
Proof.
  intros Hin. apply list_remove_None in Hin.
  unfold release. run_monad. rewrite Hin. reflexivity.
Qed.

Lemma release_present (me : ident) (w : World) :
  In me (owning (core w)) ->
  exists l1 l2 w',
    release me w = (Return tt, w') /\
    owning (core w) = l1 ++ me :: l2 /\ ~ In me l1 /\
    owning (core w') = l1 ++ l2 /\
    (0 < state (core w) -> state (core w') = state (core w) - 1) /\
    (state (core w) <= 0 -> state (core w') = state (core w) + 1) /\
    waiting (core w') = waiting (core w) /\
    (state (core w') = 0 -> added w w' [EvNotifyAll]) /\
    (state (core w') <> 0 -> added w w' []).
Proof.
  intros Hin. destruct (list_remove_In _ _ Hin) as [rest Hrm].
  destruct (list_remove_Some _ _ _ Hrm) as [l1 [l2 [Hl [-> Hl1]]]].
  exists l1, l2. unfold release. run_monad. rewrite Hrm.
  destruct (Z.ltb_spec 0 (state (core w))) as [Hpos|Hnp];
    match goal with
    | |- context [if ?s =? 0 then _ else _] =>
        destruct (Z.eqb_spec s 0) as [Hz|Hz]
    end;
    eexists; (split; [reflexivity|]); simpl; unfold added; simpl;
    repeat split; auto; try lia; try congruence.
Qed.

Lemma release_Inv (me : ident) (w : World) :
  Inv (core w) -> Inv (core (snd (release me w))).
Proof.
  intros HI. destruct (in_dec Z.eq_dec me (owning (core w))) as [Hin|Hin].
  - destruct (release_present me w Hin)
      as [l1 [l2 [w' [-> [Hl [_ [Hr [Hdec [Hinc [Hw _]]]]]]]]]].
    simpl. destruct HI as [Hp [Hn [Hz Hwt]]].
    assert (Hlen : Z.of_nat (List.length (owning (core w'))) =
                   Z.of_nat (List.length (owning (core w))) - 1).
    { rewrite Hr, Hl, !length_app. simpl. lia. }
    assert (Hne : state (core w) <> 0).
    { intros H0. rewrite (Hz H0) in Hin. destruct Hin. }
    unfold Inv. rewrite Hw.
    destruct (Z.ltb_spec 0 (state (core w))) as [Hpos|Hnp].
    + rewrite (Hdec Hpos), Hlen, (Hp Hpos).
      repeat split; try lia.
      intros H0. apply length_zero_iff_nil. lia.
    + assert (Hneg : state (core w) < 0) by lia.
      destruct (Hn Hneg) as [Hl' Hsame].
      rewrite (Hinc Hnp), Hlen, Hl'.
      repeat split; try lia.
      * rewrite Hr. rewrite Hl in Hsame.
        now apply same_thread_remove in Hsame.
      * intros H0. apply length_zero_iff_nil. lia.
  - rewrite (release_absent me w Hin). exact HI.
Qed.

Lemma _release_save_present (me : ident) (w : World) :
  In me (owning (core w)) ->
  _release_save me w =
    (Return (owning (core w)),
     {| core := {| state := 0; waiting := waiting (core w); owning := [] |};
        clock := clock w; ticks := ticks w; others := others w;
        sched := sched w; trace := EvNotifyAll :: trace w |}).
Proof.
  intros Hin. apply contains_In in Hin.
  unfold _release_save. run_monad. rewrite Hin. reflexivity.
Qed.

Lemma _release_save_absent (me : ident) (w : World) :
  ~ In me (owning (core w)) ->
  _release_save me w =
    (Raise (RuntimeError "cannot release an un-acquired lock"), w).
Proof.
  intros Hin. apply contains_not_In in Hin.
  unfold _release_save. run_monad. rewrite Hin. reflexivity.
Qed.

Lemma _release_save_Inv (me : ident) (w : World) :
  Inv (core w) -> Inv (core (snd (_release_save me w))).
Proof.
  intros HI. destruct (in_dec Z.eq_dec me (owning (core w))) as [Hin|Hin].
  - rewrite (_release_save_present me w Hin). simpl.
    destruct HI as [_ [_ [_ Hw]]]. unfold Inv. simpl.
    repeat split; try lia; assumption.
  - rewrite (_release_save_absent me w Hin). exact HI.
Qed.

Lemma run_others_keep (f : nat -> LockCore -> LockCore) (n : nat) :
  (forall i c, Inv c -> Inv (f i c)) ->
  forall i c, Inv c -> Inv (run_others f i n c).
Proof.
  intros Hf. induction n as [|n IH]; intros i c HI; simpl.
  - assumption.
  - apply IH. now apply Hf.
Qed.

Lemma run_others_keep_unit (f : nat -> LockCore -> LockCore) (n : nat) :
  (forall i c, Inv c -> Inv (f i c)) ->
  forall i0 c,
    (forall i c', (i0 <= i < i0 + n)%nat ->
       Inv c' -> 1 <= waiting c' -> 1 <= waiting (f i c')) ->
    Inv c -> 1 <= waiting c ->
    Inv (run_others f i0 n c) /\ 1 <= waiting (run_others f i0 n c).
Proof.
  intros Hf. induction n as [|n IH]; intros i0 c Hu HI Hw; simpl.
  - split; assumption.
  - apply IH.
    + intros i c' Hi. apply Hu. lia.
    + now apply Hf.
    + apply Hu; [lia | assumption | assumption].
Qed.

Lemma acquire_read_Inv (fuel : nat) (me : ident) (t : option Q) (w : World) :
  others_keep_invariant w -> Inv (core w) ->
  Inv (core (snd (acquire_read fuel me t w))).
Proof.
  intros HK HI.
  destruct (acquire_read fuel me t w) as [r w'] eqn:E.
  apply (wait_for_spec _ (_acquire_read_leaves_alone me)) in E.
  destruct E as [_ [_ [n [_ [Ht Hf]]]]]. simpl in *.
  pose proof (run_others_keep (others w) n HK (sched w) (core w) HI) as Hc.
  destruct r as [[|]|e|].
  - destruct (_acquire_read_Inv me _ _ Hc (Ht eq_refl)). assumption.
  - rewrite Hf by discriminate. assumption.
  - rewrite Hf by discriminate. assumption.
  - rewrite Hf by discriminate. assumption.
Qed.

Lemma acquire_write_Inv (fuel : nat) (me : ident) (t : option Q) (w : World) :
  others_keep_invariant w ->
  others_keep_unit w (sched w) (sched (snd (acquire_write fuel me t w))) ->
  Inv (core w) ->
  Inv (core (snd (acquire_write fuel me t w))).
Proof.
  intros HK HU HI.
  destruct (acquire_write fuel me t w) as [r w'] eqn:E.
  apply acquire_write_spec in E.
  destruct E as [_ [n [Hs [Ht [Hp Hf]]]]]. simpl in *.
  rewrite Hs in HU.
  assert (HI1 : Inv (add_waiting 1 (core w))).
  { apply add_waiting_Inv; [assumption|]. destruct HI as [_ [_ [_ Hw]]]. lia. }
  assert (Hw1 : 1 <= waiting (add_waiting 1 (core w))).
  { destruct HI as [_ [_ [_ Hw]]]. simpl. lia. }
  destruct (run_others_keep_unit (others w) n HK (sched w) _ HU HI1 Hw1)
    as [Hc Hwc].
  destruct r as [[|]|e|].
  - destruct (Ht eq_refl) as [c' [Hq ->]].
    destruct (_acquire_write_Inv me _ _ Hc Hq) as [Hc' Hwc'].
    apply add_waiting_Inv; [assumption | lia].
  - rewrite Hf by discriminate. apply add_waiting_Inv; [assumption | lia].
  - rewrite Hf by discriminate. apply add_waiting_Inv; [assumption | lia].
  - rewrite (Hp eq_refl). assumption.
Qed.

Lemma restored_Inv (x : list ident) (wt : Z) :
  same_thread x -> 0 <= wt ->
  Inv {| state := - Z.of_nat (List.length x); waiting := wt; owning := x |}.
Proof.
  intros Hs Hw. unfold Inv. simpl. repeat split; try lia; try assumption.
  intros H0. apply length_zero_iff_nil. lia.
Qed.

Lemma snd_bind_ret {A B} (m : M A) (f : A -> B) (w : World) :
  snd (bind m (fun a => ret (f a)) w) = snd (m w).
Proof.
  unfold bind, ret. destruct (m w) as [[a|e|] w']; reflexivity.
Qed.

Lemma _acquire_restore_Inv (fuel : nat) (me : ident) (x : list ident)
    (w : World) :
  same_thread x ->
  others_keep_invariant w ->
  others_keep_unit w (sched w) (sched (snd (acquire_write fuel me None w))) ->
  Inv (core w) ->
  Inv (core (snd (_acquire_restore fuel me x w))).
Proof.
  intros Hx HK HU HI.
  pose proof (acquire_write_Inv fuel me None w HK HU HI) as HA.
  unfold _acquire_restore. unfold bind at 1.
  destruct (acquire_write fuel me None w) as [r w'] eqn:E.
  apply acquire_write_spec in E. destruct E as [Ho _]. simpl in HA.
  destruct r as [b|e|]; try exact HA.
  run_monad. unfold yield. simpl.
  assert (HI' : Inv (others w' (sched w') (core w'))).
  { rewrite Ho. now apply HK. }
  apply restored_Inv; [assumption|]. now destruct HI' as [_ [_ [_ Hw]]].
Qed.

(** One call keeps the invariant. *)
Lemma run_Inv (fuel : nat) (me : ident) (o : op) (w : World) :
  token_ok o ->
  others_keep_invariant w ->
  others_keep_unit w (sched w) (write_wait_end fuel me o w) ->
  Inv (core w) ->
  Inv (core (snd (run fuel me o w))).
Proof.
  intros Htok HK HU HI. destruct o as [t|t| | |x]; unfold run.
  - rewrite snd_bind_ret. now apply acquire_read_Inv.
  - rewrite snd_bind_ret. now apply acquire_write_Inv.
  - rewrite (snd_bind_ret (release me) (fun _ => VNone)).
    now apply release_Inv.
  - rewrite snd_bind_ret. now apply _release_save_Inv.
  - rewrite (snd_bind_ret (_acquire_restore fuel me x) (fun _ => VNone)).
    now apply _acquire_restore_Inv.
Qed.

(* ================================================================= *)
(** * The specification, statement by statement *)

(** C1 (amended).  Each of the five operations keeps the invariant of the
    data model: [state > 0] implies [owning] has [state] entries, [state < 0]
    implies it has [-state] entries all naming one thread, [state = 0]
    implies it is empty, and [waiting >= 0] -- whatever way the call ends.
    For [_acquire_restore] this needs a token whose entries all name one
    thread: the call installs the token as it is.  Of the other threads it
    is assumed that each of their steps keeps the invariant, and that while
    the caller is inside [acquire_write] they leave its unit in [waiting];
    they may bring [waiting] down to 0 at any other time, also while the
    caller waits in [acquire_read] or between the two monitor sections of
    [_acquire_restore]. *)
Theorem operations_preserve_invariant (fuel : nat) (me : ident) (o : op)
    (w : World) :
  token_ok o ->
  others_keep_invariant w ->
  others_keep_unit w (sched w) (write_wait_end fuel me o w) ->
  Inv (core w) ->
  Inv (core (snd (run fuel me o w))).
Proof.
  intros Htok HK HU HI. destruct o as [t|t| | |x]; unfold run.
  - rewrite snd_bind_ret. now apply acquire_read_Inv.
  - rewrite snd_bind_ret. now apply acquire_write_Inv.
  - rewrite (snd_bind_ret (release me) (fun _ => VNone)).
    now apply release_Inv.
  - rewrite snd_bind_ret. now apply _release_save_Inv.
  - rewrite (snd_bind_ret (_acquire_restore fuel me x) (fun _ => VNone)).
    now apply _acquire_restore_Inv.
Qed.

Lemma operations_preserve_invariant_witness :
  Inv (core (snd (run 3 1 (AcquireRestore [1; 1])
                    (with_leaving_writer
                       {| state := 0; waiting := 1; owning := [] |})))) /\
  Inv (core (snd (run 3 1 (AcquireRead None)
                    (with_leaving_writer
                       {| state := 1; waiting := 1; owning := [3] |})))) /\
  waiting (core (snd (run 3 1 (AcquireRead None)
                        (with_leaving_writer
                           {| state := 1; waiting := 1; owning := [3] |}))))
    = 0.
Proof.
  assert (HK : forall c, others_keep_invariant (with_leaving_writer c)).
  { intros c0 [|i] c Hc; simpl; [|exact Hc].
    destruct Hc as [Hp [Hn [Hz Hw]]]. unfold Inv, writer_gives_up. simpl.
    split; [exact Hp | split; [exact Hn | split; [exact Hz | lia]]]. }
  pose (wa := with_leaving_writer {| state := 0; waiting := 1; owning := [] |}).
  pose (wb := with_leaving_writer {| state := 1; waiting := 1; owning := [3] |}).
  assert (Ea : write_wait_end 3 1 (AcquireRestore [1; 1]) wa = sched wa)
    by (vm_compute; reflexivity).
  assert (Ht : token_ok (AcquireRestore [1; 1])).
  { simpl. apply same_thread_b_spec. reflexivity. }
  assert (HUa : others_keep_unit wa (sched wa)
                  (write_wait_end 3 1 (AcquireRestore [1; 1]) wa)).
  { rewrite Ea. intros i c Hi. lia. }
  assert (HUb : others_keep_unit wb (sched wb)
                  (write_wait_end 3 1 (AcquireRead None) wb)).
  { intros i c Hi. simpl in Hi. lia. }
  assert (HIa : Inv (core wa)) by (apply inv_b_spec; reflexivity).
  assert (HIb : Inv (core wb)) by (apply inv_b_spec; reflexivity).
  split; [|split].
  - exact (operations_preserve_invariant 3 1 (AcquireRestore [1; 1]) wa
             Ht (HK _) HUa HIa).
  - exact (operations_preserve_invariant 3 1 (AcquireRead None) wb
             I (HK _) HUb HIb).
  - vm_compute. reflexivity.
Defined.

(** C1 as stated fails for [_acquire_restore].  Threads 1 and 2 each hold one
    shared stake; thread 1 calls [_release_save], which hands it the token
    [[1; 2]] and leaves a core that satisfies the invariant; restoring that
    token, with no other thread doing anything, gives [state = -2] with two
    different threads in [owning]. *)
Lemma acquire_restore_breaks_invariant :
  let w0 := alone {| state := 2; waiting := 0; owning := [1; 2] |} in
  let w1 := snd (run 0 1 ReleaseSave w0) in
  let w2 := snd (run 0 1 (AcquireRestore [1; 2]) w1) in
  Inv (core w0) /\
  fst (run 0 1 ReleaseSave w0) = Return (VToken [1; 2]) /\
  Inv (core w1) /\ quiet w1 /\
  others_keep_invariant w1 /\
  others_keep_unit w1 (sched w1)
    (write_wait_end 0 1 (AcquireRestore [1; 2]) w1) /\
  core w2 = {| state := -2; waiting := 0; owning := [1; 2] |} /\
  ~ Inv (core w2).
Proof.
  intros w0 w1 w2.
  split; [apply inv_b_spec; reflexivity|].
  split; [reflexivity|].
  split; [apply inv_b_spec; reflexivity|].
  split; [intros i c; reflexivity|].
  split; [intros i c Hc; exact Hc|].
  split; [intros i c _ _ Hc; exact Hc|].
  split; [reflexivity|].
  intros H. apply inv_b_spec in H. vm_compute in H. discriminate.
Qed.

(** C2.  [acquire_write] by a thread that is in [owning] while [state > 0]
    raises "cannot upgrade RWLock from read to write" at the first call of
    the predicate: no wait, no reading of the clock, whatever the timeout
    and however many wake-ups are allowed; [state], [owning] and [waiting]
    are as before. *)
Theorem upgrade_is_rejected_at_once (fuel : nat) (me : ident)
    (timeout : option Q) (w : World) :
  0 < state (core w) -> In me (owning (core w)) ->
  exists w',
    acquire_write fuel me timeout w =
      (Raise (RuntimeError "cannot upgrade RWLock from read to write"), w') /\
    core w' = core w /\
    added w w' [EvPredicate] /\
    sched w' = sched w /\ ticks w' = ticks w.
Proof.
  intros Hs Hin.
  unfold acquire_write, with_cond.
  unfold bind at 1, get_core. unfold bind at 1, put_core.
  rewrite try_finally_eq. unfold wait_for. unfold bind at 1.
  rewrite call_eq. simpl.
  rewrite (_acquire_write_upgrade me (add_waiting 1 (core w)) Hs Hin).
  simpl. eexists. split; [reflexivity|]. simpl.
  split; [apply add_waiting_cancel|]. repeat split.
Qed.

Lemma upgrade_is_rejected_at_once_witness :
  exists w',
    acquire_write 5 1 None
      (alone {| state := 2; waiting := 0; owning := [1; 2] |}) =
      (Raise (RuntimeError "cannot upgrade RWLock from read to write"), w') /\
    core w' = {| state := 2; waiting := 0; owning := [1; 2] |} /\
    added (alone {| state := 2; waiting := 0; owning := [1; 2] |}) w'
      [EvPredicate] /\
    sched w' = 0%nat /\ ticks w' = 0%nat.
Proof.
  apply (upgrade_is_rejected_at_once 5 1 None
           (alone {| state := 2; waiting := 0; owning := [1; 2] |})).
  - simpl. lia.
  - simpl. left. reflexivity.
Defined.

(** C3.  [release] by a thread that is not in [owning] raises "cannot
    release an un-acquired lock" and changes nothing.  Otherwise it takes
    one occurrence of the caller out of [owning] (the first) and leaves the
    other entries in place, decrements [state] when it is positive and
    increments it otherwise, leaves [waiting] alone, and calls [notify_all]
    exactly when the new [state] is 0. *)
Theorem release_behaviour (me : ident) (w : World) :
  (~ In me (owning (core w)) ->
     release me w =
       (Raise (RuntimeError "cannot release an un-acquired lock"), w)) /\
  (In me (owning (core w)) ->
     exists l1 l2 w',
       release me w = (Return tt, w') /\
       owning (core w) = l1 ++ me :: l2 /\ ~ In me l1 /\
       owning (core w') = l1 ++ l2 /\
       (0 < state (core w) -> state (core w') = state (core w) - 1) /\
       (state (core w) <= 0 -> state (core w') = state (core w) + 1) /\
       waiting (core w') = waiting (core w) /\
       (state (core w') = 0 -> added w w' [EvNotifyAll]) /\
       (state (core w') <> 0 -> added w w' [])).
Proof.
  split; [apply release_absent | apply release_present].
Qed.

Lemma release_behaviour_witness :
  release 3 (alone {| state := -2; waiting := 1; owning := [7; 7] |}) =
    (Raise (RuntimeError "cannot release an un-acquired lock"),
     alone {| state := -2; waiting := 1; owning := [7; 7] |}) /\
  exists l1 l2 w',
    release 7 (alone {| state := -2; waiting := 1; owning := [7; 7] |}) =
      (Return tt, w') /\
    [7; 7] = l1 ++ 7 :: l2 /\ ~ In 7 l1 /\
    owning (core w') = l1 ++ l2 /\
    state (core w') = -2 + 1 /\
    waiting (core w') = 1.
Proof.
  destruct (release_behaviour 3
              (alone {| state := -2; waiting := 1; owning := [7; 7] |}))
    as [Habsent _].
  destruct (release_behaviour 7
              (alone {| state := -2; waiting := 1; owning := [7; 7] |}))
    as [_ Hpresent].
  split.
  - apply Habsent. simpl. intros [H|[H|[]]]; discriminate.
  - destruct Hpresent as [l1 [l2 [w' [He [Hl [Hn [Ho [_ [Hi [Hw _]]]]]]]]]].
    + simpl. left. reflexivity.
    + exists l1, l2, w'. repeat split; try assumption.
      apply Hi. simpl. lia.
Defined.

(** C4.  The read-admission predicate with [state >= 0] admits the caller
    exactly when [waiting] is 0 or the caller is already in [owning]; when it
    admits, [state] goes up by one and the caller is appended to [owning];
    with [waiting > 0] and the caller not in [owning] it answers [False] and
    changes nothing. *)
Theorem read_admission (me : ident) (c : LockCore) :
  0 <= state c ->
  (fst (_acquire_read me c) = Return true <->
     waiting c = 0 \/ In me (owning c)) /\
  (waiting c = 0 \/ In me (owning c) ->
     _acquire_read me c =
       (Return true,
        {| state := state c + 1; waiting := waiting c;
           owning := owning c ++ [me] |})) /\
  (0 < waiting c -> ~ In me (owning c) ->
     _acquire_read me c = (Return false, c)).
Proof.
  intros Hs. unfold _acquire_read.
  replace (state c <? 0) with false by (symmetry; apply Z.ltb_ge; lia).
  destruct (Z.eqb_spec (waiting c) 0) as [Hw|Hw].
  - repeat split; auto. intros; lia.
  - destruct (contains me (owning c)) eqn:Ein; simpl.
    + apply contains_In in Ein. repeat split; auto. contradiction.
    + apply contains_not_In in Ein. repeat split; try discriminate.
      * intros [H|H]; contradiction.
      * intros [H|H]; contradiction.
Qed.

Lemma read_admission_witness :
  _acquire_read 4 {| state := 1; waiting := 2; owning := [4] |} =
    (Return true, {| state := 1 + 1; waiting := 2; owning := [4] ++ [4] |}) /\
  _acquire_read 5 {| state := 1; waiting := 2; owning := [4] |} =
    (Return false, {| state := 1; waiting := 2; owning := [4] |}).
Proof.
  split.
  - destruct (read_admission 4 {| state := 1; waiting := 2; owning := [4] |})
      as [_ [Hadmit _]].
    + simpl. lia.
    + apply Hadmit. right. simpl. left. reflexivity.
  - destruct (read_admission 5 {| state := 1; waiting := 2; owning := [4] |})
      as [_ [_ Hqueue]].
    + simpl. lia.
    + apply Hqueue.
      * simpl. lia.
      * simpl. intros [H|[]]. discriminate.
Defined.

(** The first thing the loop does when it has no deadline yet is to wait,
    with the timeout it was given. *)
Lemma wait_loop_trace (p : C bool) (fuel : nat) :
  forall e t w, exists evs,
    trace (snd (wait_loop fuel p e t w)) = evs ++ trace w.
Proof.
  induction fuel as [|fuel IH]; intros e t w.
  - exists []. reflexivity.
  - simpl. unfold bind at 1.
    destruct (deadline_frame e t w) as [ctl [w1 [Hd [_ [_ [_ [_ Ht]]]]]]].
    rewrite Hd. destruct ctl as [|e' t'].
    + exists []. simpl. assumption.
    + unfold bind at 1. rewrite cond_wait_eq.
      unfold bind at 1. rewrite call_eq. simpl.
      destruct (fst (p (others w1 (sched w1) (core w1)))) as [[|]| |].
      * exists [EvPredicate; EvWait t']. simpl. now rewrite Ht.
      * match goal with
        | |- context [wait_loop fuel p e' t' ?w3] =>
            destruct (IH e' t' w3) as [evs Hevs]
        end.
        exists (evs ++ [EvPredicate; EvWait t']).
        rewrite Hevs. simpl. rewrite Ht, <- app_assoc. reflexivity.
      * exists [EvPredicate; EvWait t']. simpl. now rewrite Ht.
      * exists [EvPredicate; EvWait t']. simpl. now rewrite Ht.
Qed.

Lemma wait_loop_first_wait (p : C bool) (fuel : nat) (t : option Q)
    (w : World) :
  exists evs,
    trace (snd (wait_loop (S fuel) p None t w)) = evs ++ EvWait t :: trace w.
Proof.
  simpl. unfold bind at 1.
  assert (Hd : exists e' w1,
             deadline None t w = (Return (Wait e' t), w1) /\
             trace w1 = trace w).
  { unfold deadline. destruct t as [wt|]; run_monad; unfold time_time;
      eexists; eexists; split; reflexivity. }
  destruct Hd as [e' [w1 [Hd Ht]]]. rewrite Hd.
  unfold bind at 1. rewrite cond_wait_eq.
  unfold bind at 1. rewrite call_eq. simpl.
  destruct (fst (p (others w1 (sched w1) (core w1)))) as [[|]| |].
  - exists [EvPredicate]. simpl. now rewrite Ht.
  - match goal with
    | |- context [wait_loop fuel p e' t ?w3] =>
        destruct (wait_loop_trace p fuel e' t w3) as [evs Hevs]
    end.
    exists (evs ++ [EvPredicate]). rewrite Hevs. simpl.
    rewrite Ht, <- app_assoc. reflexivity.
  - exists [EvPredicate]. simpl. now rewrite Ht.
  - exists [EvPredicate]. simpl. now rewrite Ht.
Qed.

(** Left alone, a caller whose predicate is false and who gave no timeout
    stays in the loop. *)
Lemma wait_loop_stays (p : C bool) (c : LockCore) (fuel : nat) :
  p c = (Return false, c) ->
  forall w, quiet w -> core w = c ->
    exists w', wait_loop fuel p None None w = (Pending, w') /\ core w' = c.
Proof.
  intros Hp. induction fuel as [|fuel IH]; intros w Hq Hc.
  - exists w. split; [reflexivity | assumption].
  - simpl. unfold deadline. unfold bind at 1, ret at 1.
    unfold bind at 1. rewrite cond_wait_eq.
    unfold bind at 1. rewrite call_eq. simpl.
    rewrite Hq, Hc, Hp. simpl.
    apply IH; [|reflexivity].
    intros i c'. simpl. apply Hq.
Qed.

(** C6.  While [state < 0], [acquire_read] decides with the write-admission
    predicate.  A caller that is in [owning] is admitted at once and gets
    one more exclusive stake: [state] goes down by one and the caller is
    appended.  A caller that is not in [owning] gets [False] from the
    predicate, which changes nothing; the call then waits on the condition
    variable, and as long as no other thread acts it does not come back. *)
Theorem read_while_exclusive (me : ident) (w : World) :
  state (core w) < 0 ->
  _acquire_read me (core w) = _acquire_write me (core w) /\
  (In me (owning (core w)) ->
     forall fuel timeout, exists w',
       acquire_read fuel me timeout w = (Return true, w') /\
       core w' = {| state := state (core w) - 1;
                    waiting := waiting (core w);
                    owning := owning (core w) ++ [me] |} /\
       added w w' [EvPredicate]) /\
  (~ In me (owning (core w)) ->
     _acquire_read me (core w) = (Return false, core w) /\
     (forall fuel timeout, exists evs,
        added w (snd (acquire_read (S fuel) me timeout w))
          (evs ++ [EvWait timeout; EvPredicate])) /\
     (quiet w -> forall fuel, exists w',
        acquire_read fuel me None w = (Pending, w') /\ core w' = core w)).
Proof.
  intros Hs.
  assert (Heq : _acquire_read me (core w) = _acquire_write me (core w)).
  { unfold _acquire_read. apply Z.ltb_lt in Hs. now rewrite Hs. }
  split; [exact Heq|]. split.
  - intros Hin fuel timeout.
    unfold acquire_read, with_cond, wait_for. unfold bind at 1.
    rewrite call_eq, Heq, (_acquire_write_recursive me (core w) Hs Hin).
    simpl. eexists. split; [reflexivity|]. split; reflexivity.
  - intros Hin.
    assert (Hf : _acquire_read me (core w) = (Return false, core w)).
    { rewrite Heq. apply _acquire_write_busy; [lia | assumption]. }
    split; [exact Hf|]. split.
    + intros fuel timeout.
      unfold acquire_read, with_cond, wait_for. unfold bind at 1.
      rewrite call_eq, Hf. cbn [fst snd].
      match goal with
      | |- context [wait_loop (S fuel) ?p None timeout ?w1] =>
          destruct (wait_loop_first_wait p fuel timeout w1) as [evs Hevs]
      end.
      exists evs. unfold added. rewrite Hevs. simpl.
      rewrite <- app_assoc. reflexivity.
    + intros Hq fuel.
      unfold acquire_read, with_cond, wait_for. unfold bind at 1.
      rewrite call_eq, Hf. cbn [fst snd].
      apply (wait_loop_stays (_acquire_read me) (core w) fuel Hf);
        [|reflexivity].
      intros i c'. simpl. apply Hq.
Qed.

Lemma read_while_exclusive_witness :
  (exists w',
     acquire_read 0 2 (Some 0%Q)
       (alone {| state := -1; waiting := 0; owning := [2] |}) =
       (Return true, w') /\
     core w' = {| state := -1 - 1; waiting := 0; owning := [2] ++ [2] |} /\
     added (alone {| state := -1; waiting := 0; owning := [2] |}) w'
       [EvPredicate]) /\
  (exists w',
     acquire_read 4 1 None
       (alone {| state := -1; waiting := 0; owning := [2] |}) =
       (Pending, w') /\
     core w' = {| state := -1; waiting := 0; owning := [2] |}).
Proof.
  assert (Hs : state (core (alone {| state := -1; waiting := 0;
                                     owning := [2] |})) < 0)
    by (simpl; lia).
  split.
  - destruct (read_while_exclusive 2 _ Hs) as [_ [Hmine _]].
    apply Hmine. simpl. left. reflexivity.
  - destruct (read_while_exclusive 1 _ Hs) as [_ [_ Hother]].
    destruct Hother as [_ [_ Hstays]].
    + simpl. intros [H|[]]. discriminate.
    + apply Hstays. intros i c. reflexivity.
Defined.

(** C10.  [_release_save] only asks whether the caller is somewhere in
    [owning]; it does not look at [state].  When the caller is there -- also
    with [state > 0] and with other threads' entries in [owning] -- it
    empties [owning], sets [state] to 0, calls [notify_all] and returns the
    whole former list.  It raises "cannot release an un-acquired lock", and
    changes nothing, exactly when the caller is not in [owning]. *)
Theorem release_save_ignores_mode (me : ident) (w : World) :
  (In me (owning (core w)) ->
     exists w',
       _release_save me w = (Return (owning (core w)), w') /\
       core w' = {| state := 0; waiting := waiting (core w); owning := [] |} /\
       added w w' [EvNotifyAll]) /\
  (~ In me (owning (core w)) ->
     _release_save me w =
       (Raise (RuntimeError "cannot release an un-acquired lock"), w)).
Proof.
  split.
  - intros Hin. rewrite (_release_save_present me w Hin).
    eexists. split; [reflexivity|]. split; reflexivity.
  - apply _release_save_absent.
Qed.

Lemma release_save_ignores_mode_witness :
  (exists w',
     _release_save 1 (alone {| state := 3; waiting := 1; owning := [2; 1; 2] |})
       = (Return [2; 1; 2], w') /\
     core w' = {| state := 0; waiting := 1; owning := [] |} /\
     added (alone {| state := 3; waiting := 1; owning := [2; 1; 2] |}) w'
       [EvNotifyAll]) /\
  _release_save 5 (alone {| state := 3; waiting := 1; owning := [2; 1; 2] |})
    = (Raise (RuntimeError "cannot release an un-acquired lock"),
       alone {| state := 3; waiting := 1; owning := [2; 1; 2] |}).
Proof.
  split.
  - destruct (release_save_ignores_mode 1
                (alone {| state := 3; waiting := 1; owning := [2; 1; 2] |}))
      as [Hheld _].
    apply Hheld. simpl. right. left. reflexivity.
  - destruct (release_save_ignores_mode 5
                (alone {| state := 3; waiting := 1; owning := [2; 1; 2] |}))
      as [_ Hnot].
    apply Hnot. simpl. intros [H|[H|[H|[]]]]; discriminate.
Defined.

(** C8 (amended).  The timeout translation raises exactly when the timeout
    is negative and is not -1, or when it is positive and [blocking] is
    false.  With [blocking] true, -1 becomes an indefinite wait ([None]) and
    a timeout [>= 0] a bounded wait of that duration; with [blocking] false,
    -1 and 0 become the expired timeout 0. *)
Theorem timeout_translation (blocking : bool) (timeout : Q) :
  (is_raise (_timeout blocking timeout) = true <->
     ((timeout < 0)%Q /\ ~ (timeout == -1)%Q) \/
     ((0 < timeout)%Q /\ blocking = false)) /\
  (blocking = true -> (timeout == -1)%Q ->
     _timeout blocking timeout = Return None) /\
  (blocking = true -> (0 <= timeout)%Q ->
     _timeout blocking timeout = Return (Some timeout)) /\
  (blocking = false -> (timeout == -1)%Q \/ (timeout == 0)%Q ->
     _timeout blocking timeout = Return (Some 0%Q)).
Proof.
  unfold _timeout.
  destruct (Qltb timeout 0) eqn:Eneg;
    [apply Qltb_lt in Eneg | apply Qltb_ge in Eneg];
    (destruct (Qeq_bool timeout (-1)) eqn:Em1;
       [apply Qeq_bool_iff in Em1 | apply Qeq_bool_neq in Em1]);
    simpl.
  - (* timeout == -1 *)
    assert (Hnle : Qle_bool 0 timeout = false).
    { destruct (Qle_bool 0 timeout) eqn:E; [|reflexivity].
      apply Qle_bool_iff in E. exfalso. exact (Qlt_not_le _ _ Eneg E). }
    assert (Hnlt : Qltb 0 timeout = false).
    { apply Qltb_ge. now apply Qlt_le_weak. }
    rewrite Hnle, Hnlt. destruct blocking; simpl.
    + repeat split; try discriminate; try reflexivity.
      * intros [[_ H]|[_ H]]; [contradiction | discriminate].
      * intros _ H. exfalso. exact (Qlt_not_le _ _ Eneg H).
    + repeat split; try discriminate; try reflexivity.
      intros [[_ H]|[H _]]; [contradiction|].
      exfalso. apply (Qlt_irrefl 0). now apply Qlt_trans with timeout.
  - (* negative, not -1 *)
    repeat split; try reflexivity.
    + intros _. left. split; assumption.
    + intros _ H. contradiction.
    + intros _ H. exfalso. exact (Qlt_not_le _ _ Eneg H).
    + intros _ [H|H]; [contradiction|].
      rewrite H in Eneg. exfalso. exact (Qlt_irrefl 0 Eneg).
  - (* not negative, yet == -1: impossible *)
    exfalso. rewrite Em1 in Eneg. now apply Eneg.
  - (* timeout >= 0 *)
    apply Qle_bool_iff in Eneg as Hle. rewrite Hle.
    destruct blocking; simpl.
    + repeat split; try discriminate; try reflexivity.
      * intros [[H _]|[_ H]]; [|discriminate].
        exfalso. exact (Qlt_not_le _ _ H Eneg).
      * intros _ H. contradiction.
    + destruct (Qltb 0 timeout) eqn:Epos;
        [apply Qltb_lt in Epos | apply Qltb_ge in Epos]; simpl.
      * repeat split; try discriminate; try reflexivity.
        -- intros _. right. split; [assumption | reflexivity].
        -- intros _ [H|H]; [contradiction|].
           rewrite H in Epos. exfalso. exact (Qlt_irrefl 0 Epos).
      * repeat split; try discriminate; try reflexivity.
        intros [[H _]|[H _]].
        -- exfalso. exact (Qlt_not_le _ _ H Eneg).
        -- exfalso. exact (Qlt_not_le _ _ H Epos).
Qed.

Lemma timeout_translation_witness :
  _timeout true (-1) = Return None /\
  _timeout true (3 # 2) = Return (Some (3 # 2)) /\
  _timeout false 0 = Return (Some 0%Q).
Proof.
  destruct (timeout_translation true (-1)) as [_ [Hforever _]].
  destruct (timeout_translation true (3 # 2)) as [_ [_ [Hbounded _]]].
  destruct (timeout_translation false 0) as [_ [_ [_ Hexpired]]].
  split; [|split].
  - apply Hforever; reflexivity.
  - apply Hbounded; [reflexivity | discriminate].
  - apply Hexpired; [reflexivity | right; reflexivity].
Defined.

(** C8 as stated fails at the timeout -1/2 with [blocking] true: it is
    negative and not below -1, the statement wants an indefinite wait and no
    error, and [_timeout] raises "invalid timeout". *)
Lemma timeout_minus_half_is_invalid :
  _timeout true (-1 # 2) = Raise (ValueError "invalid timeout") /\
  is_raise (_timeout true (-1 # 2)) = true /\
  ~ spec_invalid_timeout true (-1 # 2) /\
  (-1 # 2 < 0)%Q /\
  _timeout true (-1 # 2) <> Return None.
Proof.
  split; [reflexivity|]. split; [reflexivity|]. split.
  - unfold spec_invalid_timeout. intros [H|[_ H]]; discriminate.
  - split; [reflexivity | discriminate].
Qed.

Lemma _acquire_write_waiting (me : ident) (c : LockCore) :
  waiting (snd (_acquire_write me c)) = waiting c.
Proof.
  unfold _acquire_write.
  destruct ((state c =? 0) || ((state c <? 0) && contains me (owning c)));
    [|destruct ((0 <? state c) && contains me (owning c))]; reflexivity.
Qed.

Lemma others_ran_eq (w w' : World) (n : nat) (c : LockCore) :
  sched w' = (sched w + n)%nat ->
  others_ran w w' c = run_others (others w) (sched w) n c.
Proof.
  intros H. unfold others_ran. rewrite H.
  replace (sched w + n - sched w)%nat with n by lia. reflexivity.
Qed.

Lemma others_ran_quiet (w w' : World) (c : LockCore) :
  quiet w -> others_ran w w' c = c.
Proof.
  intros Hq. unfold others_ran. now apply run_others_quiet.
Qed.

Lemma acquire_read_failed (fuel : nat) (me : ident) (t : option Q)
    (w w' : World) :
  acquire_read fuel me t w = (Return false, w') ->
  core w' = others_ran w w' (core w).
Proof.
  intros E. apply (wait_for_spec _ (_acquire_read_leaves_alone me)) in E.
  destruct E as [_ [_ [n [Hs [_ Hf]]]]]. simpl in Hf.
  rewrite (others_ran_eq w w' n _ Hs). apply Hf. discriminate.
Qed.

Lemma acquire_write_failed (fuel : nat) (me : ident) (t : option Q)
    (w w' : World) :
  acquire_write fuel me t w = (Return false, w') ->
  core w' = add_waiting (-1) (others_ran w w' (add_waiting 1 (core w))).
Proof.
  intros E. apply acquire_write_spec in E.
  destruct E as [_ [n [Hs [_ [_ Hf]]]]]. simpl in Hf.
  rewrite (others_ran_eq w w' n _ Hs). apply Hf; discriminate.
Qed.

Lemma acquire_write_waiting (fuel : nat) (me : ident) (t : option Q)
    (w : World) (r : outcome bool) (w' : World) :
  acquire_write fuel me t w = (r, w') -> r <> Pending ->
  waiting (core w') =
    waiting (others_ran w w' (add_waiting 1 (core w))) - 1.
Proof.
  intros E Hr. apply acquire_write_spec in E.
  destruct E as [_ [n [Hs [Ht [_ Hf]]]]]. simpl in Ht, Hf.
  rewrite (others_ran_eq w w' n _ Hs).
  destruct r as [[|]|e|]; try congruence.
  - destruct (Ht eq_refl) as [c' [Hq ->]]. simpl.
    pose proof (_acquire_write_waiting me
                  (run_others (others w) (sched w) n
                     (add_waiting 1 (core w)))) as Hw.
    rewrite Hq in Hw. simpl in Hw. rewrite Hw. lia.
  - rewrite Hf by discriminate. simpl. lia.
  - rewrite Hf by discriminate. simpl. lia.
Qed.

(** C7.  An [acquire_read] or [acquire_write] that returns [False] has
    changed nothing itself: the core it leaves is the one the steps of the
    other threads during its waits made of the core it found, so with no
    other thread acting [state] and [owning] are exactly as before.  And
    every [acquire_write] that comes back -- with [True], with [False] or
    with an exception -- has taken out of [waiting] the unit it had put in:
    with no other thread acting [waiting] is as before the call. *)
Theorem failed_acquire_changes_nothing (fuel : nat) (me : ident)
    (timeout : option Q) (w : World) :
  (forall w',
     acquire_read fuel me timeout w = (Return false, w') ->
     core w' = others_ran w w' (core w) /\
     (quiet w -> core w' = core w)) /\
  (forall w',
     acquire_write fuel me timeout w = (Return false, w') ->
     state (core w') = state (others_ran w w' (add_waiting 1 (core w))) /\
     owning (core w') = owning (others_ran w w' (add_waiting 1 (core w))) /\
     (quiet w ->
        state (core w') = state (core w) /\
        owning (core w') = owning (core w))) /\
  (forall r w',
     acquire_write fuel me timeout w = (r, w') -> r <> Pending ->
     waiting (core w') =
       waiting (others_ran w w' (add_waiting 1 (core w))) - 1 /\
     (quiet w -> waiting (core w') = waiting (core w))).
Proof.
  split; [|split].
  - intros w' E. apply acquire_read_failed in E. split; [exact E|].
    intros Hq. rewrite E. now apply others_ran_quiet.
  - intros w' E. apply acquire_write_failed in E. rewrite E. simpl.
    split; [reflexivity|]. split; [reflexivity|].
    intros Hq. rewrite (others_ran_quiet w w' _ Hq). simpl. split; reflexivity.
  - intros r w' E Hr. pose proof (acquire_write_waiting _ _ _ _ _ _ E Hr) as H.
    split; [exact H|].
    intros Hq. rewrite H, (others_ran_quiet w w' _ Hq). simpl. lia.
Qed.

Lemma failed_acquire_changes_nothing_witness :
  core (snd (acquire_read 3 1 (Some (1 # 2))
               (alone {| state := -1; waiting := 0; owning := [2] |}))) =
    {| state := -1; waiting := 0; owning := [2] |} /\
  state (core (snd (acquire_write 3 1 (Some (1 # 2))
                      (alone {| state := 1; waiting := 0; owning := [2] |}))))
    = 1 /\
  owning (core (snd (acquire_write 3 1 (Some (1 # 2))
                       (alone {| state := 1; waiting := 0; owning := [2] |}))))
    = [2] /\
  waiting (core (snd (acquire_write 3 1 None
                        (alone {| state := 1; waiting := 0; owning := [1] |}))))
    = 0.
Proof.
  assert (Hq : forall c, quiet (alone c)) by (intros c i c'; reflexivity).
  pose (wr := alone {| state := -1; waiting := 0; owning := [2] |}).
  pose (ww := alone {| state := 1; waiting := 0; owning := [2] |}).
  pose (wu := alone {| state := 1; waiting := 0; owning := [1] |}).
  assert (Er : acquire_read 3 1 (Some (1 # 2)) wr =
               (Return false, snd (acquire_read 3 1 (Some (1 # 2)) wr)))
    by (vm_compute; reflexivity).
  assert (Ew : acquire_write 3 1 (Some (1 # 2)) ww =
               (Return false, snd (acquire_write 3 1 (Some (1 # 2)) ww)))
    by (vm_compute; reflexivity).
  assert (Eu : acquire_write 3 1 None wu =
               (Raise (RuntimeError "cannot upgrade RWLock from read to write"),
                snd (acquire_write 3 1 None wu)))
    by (vm_compute; reflexivity).
  destruct (failed_acquire_changes_nothing 3 1 (Some (1 # 2)) wr)
    as [Hread _].
  destruct (failed_acquire_changes_nothing 3 1 (Some (1 # 2)) ww)
    as [_ [Hwrite _]].
  destruct (failed_acquire_changes_nothing 3 1 None wu)
    as [_ [_ Hwaiting]].
  destruct (Hread _ Er) as [_ Hsame].
  destruct (Hwrite _ Ew) as [_ [_ Hframe]].
  destruct (Hframe (Hq _)) as [Hst How].
  destruct (Hwaiting _ _ Eu) as [_ Hwt]; [discriminate|].
  split; [exact (Hsame (Hq _))|].
  split; [exact Hst|]. split; [exact How | exact (Hwt (Hq _))].
Defined.

Lemma wait_for_true_at_once (fuel : nat) (p : C bool) (t : option Q)
    (w : World) :
  fst (p (core w)) = Return true ->
  exists w',
    wait_for fuel p t w = (Return true, w') /\
    core w' = snd (p (core w)) /\ added w w' [EvPredicate] /\
    sched w' = sched w.
Proof.
  intros H. unfold wait_for. unfold bind at 1. rewrite call_eq, H.
  cbn [fst snd]. eexists. split; [reflexivity|]. repeat split.
Qed.

(** C9 (amended).  [wait_for] with the expired timeout 0 calls the predicate
    once and, when that call answers [True], returns [True] without
    waiting.  When it answers [False], the call does go through
    [cond.wait(0)] once, giving the monitor up, and calls the predicate a
    second time: it returns [True] when the second call answers [True], and
    [False] when it answers [False] and the clock has not gone backwards
    between its two readings.  Two calls of the predicate at most, one
    wait of length 0 at most. *)
Theorem wait_for_expired_timeout (fuel : nat) (p : C bool) (w : World) :
  (fst (p (core w)) = Return true ->
     exists w',
       wait_for fuel p (Some 0%Q) w = (Return true, w') /\
       core w' = snd (p (core w)) /\
       added w w' [EvPredicate]) /\
  (fst (p (core w)) = Return false ->
     forall c2, c2 = others w (sched w) (snd (p (core w))) ->
     (fst (p c2) = Return true ->
        exists w',
          wait_for (S fuel) p (Some 0%Q) w = (Return true, w') /\
          core w' = snd (p c2) /\
          added w w' [EvPredicate; EvWait (Some 0%Q); EvPredicate]) /\
     (fst (p c2) = Return false ->
      (clock w (ticks w) <= clock w (S (ticks w)))%Q ->
        exists w',
          wait_for (S (S fuel)) p (Some 0%Q) w = (Return false, w') /\
          core w' = snd (p c2) /\
          added w w' [EvPredicate; EvWait (Some 0%Q); EvPredicate])).
Proof.
  split.
  - intros H. destruct (wait_for_true_at_once fuel p (Some 0%Q) w H)
      as [w' [E [Hc [Ha _]]]].
    exists w'. repeat split; assumption.
  - intros H1 c2 ->. split.
    + intros H2. unfold wait_for. unfold bind at 1. rewrite call_eq, H1.
      cbn [fst snd]. cbn iota. simpl wait_loop. unfold deadline.
      unfold bind at 1. unfold bind at 1. unfold time_time at 1.
      cbn beta iota. unfold ret at 1.
      unfold bind at 1. rewrite cond_wait_eq.
      unfold bind at 1. rewrite call_eq. simpl. rewrite H2.
      eexists. split; [reflexivity|]. split; reflexivity.
    + intros H2 Hclock. unfold wait_for. unfold bind at 1.
      rewrite call_eq, H1.
      cbn [fst snd]. cbn iota. simpl wait_loop. unfold deadline.
      unfold bind at 1. unfold bind at 1. unfold time_time at 1.
      cbn beta iota. unfold ret at 1.
      unfold bind at 1. rewrite cond_wait_eq.
      unfold bind at 1. rewrite call_eq. simpl. rewrite H2.
      unfold bind at 1. unfold bind at 1. unfold time_time. simpl.
      assert (Hle : Qle_bool (clock w (ticks w) + 0 - clock w (S (ticks w))) 0
                    = true).
      { apply Qle_bool_iff. lra. }
      rewrite Hle. unfold ret.
      eexists. split; [reflexivity|]. split; reflexivity.
Qed.

Lemma wait_for_expired_timeout_witness :
  exists w',
    wait_for 2 (_acquire_read 1) (Some 0%Q)
      (alone {| state := -1; waiting := 0; owning := [2] |}) =
      (Return false, w') /\
    core w' = {| state := -1; waiting := 0; owning := [2] |} /\
    added (alone {| state := -1; waiting := 0; owning := [2] |}) w'
      [EvPredicate; EvWait (Some 0%Q); EvPredicate].
Proof.
  destruct (wait_for_expired_timeout 0 (_acquire_read 1)
              (alone {| state := -1; waiting := 0; owning := [2] |}))
    as [_ Hfalse].
  destruct (Hfalse eq_refl _ eq_refl) as [_ Htwice].
  apply Htwice.
  - reflexivity.
  - simpl. unfold Qle. simpl. lia.
Defined.

(** C9 as stated fails.  Thread 2 holds the lock exclusively and thread 1
    asks for it with the expired timeout 0: the first call of the predicate
    answers [False], the call waits ([cond.wait(0)]), thread 2 releases in
    the meantime, the predicate is called a second time and the call returns
    [True]. *)
Lemma expired_timeout_waits_and_checks_again :
  let w := with_thread_2 {| state := -1; waiting := 0; owning := [2] |} in
  let res := wait_for 2 (_acquire_read 1) (Some 0%Q) w in
  fst (_acquire_read 1 (core w)) = Return false /\
  fst res = Return true /\
  trace (snd res) = [EvPredicate; EvWait (Some 0%Q); EvPredicate] /\
  ~ single_check (_acquire_read 1) w.
Proof.
  intros w res.
  split; [reflexivity|]. split; [vm_compute; reflexivity|].
  split; [vm_compute; reflexivity|].
  unfold single_check, added. intros H. vm_compute in H. discriminate.
Qed.

(* ================================================================= *)
(** ** Saving and restoring the exclusive lock *)

Lemma contains_repeat (me : ident) (d : nat) :
  (0 < d)%nat -> contains me (repeat me d) = true.
Proof.
  intros Hd. apply contains_In. destruct d; [lia|]. simpl. now left.
Qed.

Lemma release_one_level (me : ident) (d : nat) (w : World) :
  state (core w) = - Z.of_nat (S d) ->
  owning (core w) = repeat me (S d) ->
  exists w',
    release me w = (Return tt, w') /\
    state (core w') = - Z.of_nat d /\
    owning (core w') = repeat me d /\
    waiting (core w') = waiting (core w) /\
    others w' = others w.
Proof.
  intros Hs Ho. unfold release. run_monad. rewrite Ho. simpl.
  rewrite Z.eqb_refl.
  replace (0 <? state (core w)) with false by (symmetry; apply Z.ltb_ge; lia).
  destruct (state (core w) + 1 =? 0);
    eexists; (split; [reflexivity|]); simpl; repeat split; lia.
Qed.

Lemma release_times_exclusive (me : ident) (k : nat) :
  forall (d : nat) (w : World),
    (k <= d)%nat ->
    state (core w) = - Z.of_nat d ->
    owning (core w) = repeat me d ->
    exists w',
      release_times k me w = (Return tt, w') /\
      state (core w') = - Z.of_nat (d - k) /\
      owning (core w') = repeat me (d - k).
Proof.
  induction k as [|k IH]; intros d w Hk Hs Ho.
  - exists w. rewrite Nat.sub_0_r. repeat split; assumption.
  - destruct d as [|d]; [lia|].
    destruct (release_one_level me d w Hs Ho) as [w1 [E [Hs1 [Ho1 _]]]].
    destruct (IH d w1 ltac:(lia) Hs1 Ho1) as [w' [E' [Hs' Ho']]].
    exists w'. simpl release_times. unfold bind. rewrite E.
    repeat split; assumption.
Qed.

Lemma _acquire_restore_free (fuel : nat) (me : ident) (x : list ident)
    (w : World) :
  state (core w) = 0 -> quiet w ->
  exists w',
    _acquire_restore fuel me x w = (Return tt, w') /\
    core w' = {| state := - Z.of_nat (List.length x);
                 waiting := waiting (core w); owning := x |} /\
    others w' = others w.
Proof.
  intros Hs Hq. unfold _acquire_restore. unfold bind at 1.
  unfold acquire_write, with_cond.
  unfold bind at 1, get_core. unfold bind at 1, put_core.
  rewrite try_finally_eq. unfold wait_for. unfold bind at 1.
  rewrite call_eq. simpl.
  rewrite (_acquire_write_free me (add_waiting 1 (core w)) Hs). simpl.
  run_monad. unfold yield. simpl. rewrite Hq. simpl.
  eexists. split; [reflexivity|]. simpl. split; [|reflexivity].
  f_equal. lia.
Qed.

(** C5.  A thread that holds the lock exclusively at depth [d] ([state = -d],
    [owning] = [d] copies of the caller) calls [_release_save] and then
    [_acquire_restore] with the token it got, no other thread acting in
    between.  The token is the whole of [owning]; the lock is free after the
    first call; after the second [owning] is the token again and [state] is
    minus its length, that is [-d], with [waiting] as before; [_is_owned]
    answers true, and it takes exactly [d] calls of [release] to bring
    [state] back to 0. *)
Theorem save_restore_round_trip (fuel : nat) (me : ident) (d : nat)
    (w : World) :
  (0 < d)%nat ->
  state (core w) = - Z.of_nat d ->
  owning (core w) = repeat me d ->
  quiet w ->
  exists w1 w2,
    _release_save me w = (Return (repeat me d), w1) /\
    state (core w1) = 0 /\ owning (core w1) = [] /\
    _acquire_restore fuel me (repeat me d) w1 = (Return tt, w2) /\
    owning (core w2) = repeat me d /\
    state (core w2) = - Z.of_nat (List.length (repeat me d)) /\
    state (core w2) = - Z.of_nat d /\
    waiting (core w2) = waiting (core w) /\
    _is_owned me (core w2) = true /\
    (forall k, (k <= d)%nat ->
       exists w3,
         release_times k me w2 = (Return tt, w3) /\
         state (core w3) = - Z.of_nat (d - k) /\
         owning (core w3) = repeat me (d - k) /\
         (state (core w3) = 0 <-> k = d)).
Proof.
  intros Hd Hs Ho Hq.
  assert (Hin : In me (owning (core w))).
  { rewrite Ho. apply contains_In. now apply contains_repeat. }
  pose proof (_release_save_present me w Hin) as E1.
  rewrite Ho in E1 at 1.
  match type of E1 with _ = (_, ?w1) => set (w1' := w1) in * end.
  assert (Hq1 : quiet w1') by (intros i c; apply Hq).
  destruct (_acquire_restore_free fuel me (repeat me d) w1' eq_refl Hq1)
    as [w2 [E2 [Hc2 _]]].
  exists w1', w2.
  split; [exact E1|]. split; [reflexivity|]. split; [reflexivity|].
  split; [exact E2|]. rewrite Hc2. simpl. rewrite repeat_length.
  split; [reflexivity|]. split; [reflexivity|]. split; [reflexivity|].
  split; [reflexivity|]. split.
  - unfold _is_owned. simpl. rewrite contains_repeat by assumption.
    replace (- Z.of_nat d <? 0) with true by (symmetry; apply Z.ltb_lt; lia).
    reflexivity.
  - intros k Hk.
    destruct (release_times_exclusive me k d w2 Hk) as [w3 [E3 [Hs3 Ho3]]].
    + rewrite Hc2. simpl. now rewrite repeat_length.
    + rewrite Hc2. reflexivity.
    + exists w3. repeat split; try assumption; lia.
Qed.

Lemma save_restore_round_trip_witness :
  exists w1 w2,
    _release_save 7 (alone {| state := -3; waiting := 0; owning := [7; 7; 7] |})
      = (Return [7; 7; 7], w1) /\
    _acquire_restore 0 7 [7; 7; 7] w1 = (Return tt, w2) /\
    owning (core w2) = [7; 7; 7] /\
    state (core w2) = -3 /\
    _is_owned 7 (core w2) = true /\
    (exists w3, release_times 2 7 w2 = (Return tt, w3) /\
                state (core w3) = -1) /\
    (exists w3, release_times 3 7 w2 = (Return tt, w3) /\
                state (core w3) = 0 /\ owning (core w3) = []).
Proof.
  destruct (save_restore_round_trip 0 7 3
              (alone {| state := -3; waiting := 0; owning := [7; 7; 7] |}))
    as [w1 [w2 [E1 [_ [_ [E2 [Ho [_ [Hs [_ [Hown Hrel]]]]]]]]]]].
  - lia.
  - reflexivity.
  - reflexivity.
  - intros i c. reflexivity.
  - exists w1, w2.
    split; [exact E1|]. split; [exact E2|]. split; [exact Ho|].
    split; [exact Hs|]. split; [exact Hown|]. split.
    + destruct (Hrel 2%nat) as [w3 [E3 [Hs3 _]]]; [lia|].
      exists w3. split; [exact E3 | exact Hs3].
    + destruct (Hrel 3%nat) as [w3 [E3 [Hs3 [Ho3 _]]]]; [lia|].
      exists w3. split; [exact E3|]. split; [exact Hs3 | exact Ho3].
Defined.

(* ================================================================= *)
(** * Further properties of the code *)

(** ** Who holds the lock after a successful call *)

Lemma _acquire_write_sole_owner (me : ident) (c c' : LockCore) :
  Inv c -> _acquire_write me c = (Return true, c') ->
  state c' < 0 /\ (forall x, In x (owning c') -> x = me).
Proof.
  intros [Hp [Hn [Hz Hw]]]. unfold _acquire_write.
  destruct (Z.eqb_spec (state c) 0) as [H0|H0]; simpl.
  - intros H. injection H as <-. simpl. rewrite (Hz H0), H0. simpl.
    split; [lia|]. intros x [<-|[]]. reflexivity.
  - destruct (Z.ltb_spec (state c) 0) as [Hlt|Hge]; simpl.
    + destruct (contains me (owning c)) eqn:Ein; simpl.
      * intros H. injection H as <-. simpl. split; [lia|].
        apply contains_In in Ein. destruct (Hn Hlt) as [_ Hsame].
        intros x Hx. apply in_app_or in Hx. destruct Hx as [Hx|[<-|[]]].
        -- now apply Hsame.
        -- reflexivity.
      * destruct (0 <? state c); simpl; discriminate.
    + destruct ((0 <? state c) && contains me (owning c)); discriminate.
Qed.

Lemma _acquire_read_owner (me : ident) (c c' : LockCore) :
  Inv c -> _acquire_read me c = (Return true, c') ->
  In me (owning c') /\
  (0 < state c' \/ (state c' < 0 /\ forall x, In x (owning c') -> x = me)).
Proof.
  intros HI. unfold _acquire_read.
  destruct (Z.ltb_spec (state c) 0) as [Hlt|Hge].
  - intros H. pose proof (_acquire_write_sole_owner me c c' HI H) as Hsole.
    split; [|right; exact Hsole].
    unfold _acquire_write in H.
    destruct ((state c =? 0) || ((state c <? 0) && contains me (owning c)));
      [|destruct ((0 <? state c) && contains me (owning c)); discriminate].
    injection H as <-. simpl. apply in_or_app. right. now left.
  - destruct (if waiting c =? 0 then true else contains me (owning c));
      [|discriminate].
    intros H. injection H as <-. simpl. split.
    + apply in_or_app. right. now left.
    + left. lia.
Qed.

Lemma release_waiting (me : ident) (w : World) :
  waiting (core (snd (release me w))) = waiting (core w).
Proof.
  destruct (in_dec Z.eq_dec me (owning (core w))) as [Hin|Hin].
  - destruct (release_present me w Hin)
      as [l1 [l2 [w1 [-> [_ [_ [_ [_ [_ [Hw _]]]]]]]]]].
    exact Hw.
  - now rewrite (release_absent me w Hin).
Qed.

(** X1.  When [acquire_write] returns [True] the lock is in exclusive mode
    and the caller is the only thread in [owning], so [_is_owned] answers
    true for it: no other thread holds a stake of any kind. *)
Theorem acquire_write_is_exclusive (fuel : nat) (me : ident)
    (timeout : option Q) (w w' : World) :
  Rely w -> Inv (core w) ->
  acquire_write fuel me timeout w = (Return true, w') ->
  state (core w') < 0 /\
  (forall x, In x (owning (core w')) -> x = me) /\
  _is_owned me (core w') = true.
Proof.
  intros HR HI E. apply acquire_write_spec in E.
  destruct E as [_ [n [_ [Ht _]]]]. simpl in Ht.
  destruct (Ht eq_refl) as [c' [Hq ->]].
  assert (HI1 : Inv (add_waiting 1 (core w))).
  { apply add_waiting_Inv; [assumption|]. destruct HI as [_ [_ [_ Hw]]]. lia. }
  destruct (run_others_Inv (others w) n HR (sched w) _ HI1) as [Hc _].
  destruct (_acquire_write_sole_owner me _ c' Hc Hq) as [Hs Hall].
  simpl. split; [exact Hs|]. split; [exact Hall|].
  unfold _is_owned. simpl.
  apply Z.ltb_lt in Hs. rewrite Hs. simpl.
  apply contains_In.
  unfold _acquire_write in Hq.
  destruct ((state _ =? 0) || ((state _ <? 0) && contains me (owning _)));
    [|destruct ((0 <? state _) && contains me (owning _)); discriminate].
  injection Hq as <-. simpl. apply in_or_app. right. now left.
Qed.

Lemma acquire_write_is_exclusive_witness :
  state (core (snd (acquire_write 2 1 None
      (with_thread_2 {| state := 1; waiting := 0; owning := [2] |})))) < 0 /\
  (forall x,
     In x (owning (core (snd (acquire_write 2 1 None
       (with_thread_2 {| state := 1; waiting := 0; owning := [2] |}))))) ->
     x = 1) /\
  _is_owned 1 (core (snd (acquire_write 2 1 None
      (with_thread_2 {| state := 1; waiting := 0; owning := [2] |}))))
    = true.
Proof.
  pose (w := with_thread_2 {| state := 1; waiting := 0; owning := [2] |}).
  assert (HR : Rely w).
  { intros [|i] c Hc; unfold w; simpl.
    - split; [exact (release_Inv 2 (alone c) Hc)|].
      rewrite (release_waiting 2 (alone c)). trivial.
    - split; [exact Hc | trivial]. }
  assert (HI : Inv (core w)) by (apply inv_b_spec; reflexivity).
  assert (E : acquire_write 2 1 None w =
              (Return true, snd (acquire_write 2 1 None w)))
    by (vm_compute; reflexivity).
  exact (acquire_write_is_exclusive 2 1 None w _ HR HI E).
Defined.

(** X2.  When [acquire_read] returns [True] -- at once or after waiting,
    each step of the other threads in between keeping the invariant -- the
    caller is in [owning], and either the lock is in shared mode or the
    caller is the one thread that holds it exclusively: a reader is never
    let in beside another thread's exclusive hold. *)
Theorem acquire_read_holds_a_stake (fuel : nat) (me : ident)
    (timeout : option Q) (w w' : World) :
  others_keep_invariant w -> Inv (core w) ->
  acquire_read fuel me timeout w = (Return true, w') ->
  In me (owning (core w')) /\
  (0 < state (core w') \/
   (state (core w') < 0 /\ forall x, In x (owning (core w')) -> x = me)).
Proof.
  intros HK HI E.
  apply (wait_for_spec _ (_acquire_read_leaves_alone me)) in E.
  destruct E as [_ [_ [n [_ [Ht _]]]]]. simpl in Ht.
  pose proof (run_others_keep (others w) n HK (sched w) (core w) HI) as Hc.
  exact (_acquire_read_owner me _ _ Hc (Ht eq_refl)).
Qed.

Lemma acquire_read_holds_a_stake_witness :
  In 1 (owning (core (snd (acquire_read 2 1 None
     (with_leaving_writer {| state := 1; waiting := 1; owning := [3] |}))))) /\
  (0 < state (core (snd (acquire_read 2 1 None
     (with_leaving_writer {| state := 1; waiting := 1; owning := [3] |}))))
   \/
   (state (core (snd (acquire_read 2 1 None
     (with_leaving_writer {| state := 1; waiting := 1; owning := [3] |}))))
      < 0 /\
    forall x,
      In x (owning (core (snd (acquire_read 2 1 None
        (with_leaving_writer
           {| state := 1; waiting := 1; owning := [3] |}))))) ->
      x = 1)).
Proof.
  pose (w := with_leaving_writer {| state := 1; waiting := 1; owning := [3] |}).
  assert (HK : others_keep_invariant w).
  { intros [|i] c Hc; unfold w; simpl; [|exact Hc].
    destruct Hc as [Hp [Hn [Hz Hw]]]. unfold Inv, writer_gives_up. simpl.
    split; [exact Hp | split; [exact Hn | split; [exact Hz | lia]]]. }
  assert (HI : Inv (core w)) by (apply inv_b_spec; reflexivity).
  assert (E : acquire_read 2 1 None w =
              (Return true, snd (acquire_read 2 1 None w)))
    by (vm_compute; reflexivity).
  exact (acquire_read_holds_a_stake 2 1 None w _ HK HI E).
Defined.

(* ================================================================= *)
(** ** Acquire, then release *)

Lemma core_eq (a b : LockCore) :
  state a = state b -> waiting a = waiting b -> owning a = owning b -> a = b.
Proof.
  destruct a, b. simpl. intros -> -> ->. reflexivity.
Qed.

(** Taking out the first occurrence of an item that was appended last. *)
Lemma list_remove_appended (x : ident) (l : list ident) :
  exists r,
    list_remove x (l ++ [x]) = Some r /\
    Permutation r l /\ (~ In x l -> r = l).
Proof.
  induction l as [|y l [r [Hr [Hp Hnot]]]]; simpl.
  - rewrite Z.eqb_refl. exists []. repeat split; auto.
  - destruct (Z.eqb_spec y x) as [->|Hne].
    + exists (l ++ [x]). split; [reflexivity|]. split.
      * apply Permutation_sym, Permutation_cons_append.
      * intros H. exfalso. apply H. now left.
    + rewrite Hr. exists (y :: r). split; [reflexivity|]. split.
      * now constructor.
      * intros H. f_equal. apply Hnot. tauto.
Qed.

Lemma admitted_shape (me : ident) (c c' : LockCore) :
  _acquire_read me c = (Return true, c') \/
  _acquire_write me c = (Return true, c') ->
  owning c' = owning c ++ [me] /\ waiting c' = waiting c /\
  ((0 <= state c /\ state c' = state c + 1) \/
   (state c <= 0 /\ state c' = state c - 1)).
Proof.
  assert (Hw : _acquire_write me c = (Return true, c') ->
               owning c' = owning c ++ [me] /\ waiting c' = waiting c /\
               ((0 <= state c /\ state c' = state c + 1) \/
                (state c <= 0 /\ state c' = state c - 1))).
  { unfold _acquire_write.
    destruct (Z.eqb_spec (state c) 0) as [H0|H0]; simpl.
    - intros H. injection H as <-. simpl. repeat split. right. lia.
    - destruct (Z.ltb_spec (state c) 0) as [Hlt|Hge]; simpl.
      + destruct (contains me (owning c)); simpl.
        * intros H. injection H as <-. simpl. repeat split. right. lia.
        * destruct (0 <? state c); simpl; discriminate.
      + destruct ((0 <? state c) && contains me (owning c)); discriminate. }
  intros [H|H]; [|now apply Hw].
  unfold _acquire_read in H.
  destruct (Z.ltb_spec (state c) 0) as [Hlt|Hge]; [now apply Hw|].
  destruct (if waiting c =? 0 then true else contains me (owning c));
    [|discriminate].
  injection H as <-. simpl. repeat split. left. lia.
Qed.

Lemma release_after_admission (me : ident) (c : LockCore) (w1 : World) :
  owning (core w1) = owning c ++ [me] ->
  waiting (core w1) = waiting c ->
  (0 <= state c /\ state (core w1) = state c + 1) \/
  (state c <= 0 /\ state (core w1) = state c - 1) ->
  exists w2,
    release me w1 = (Return tt, w2) /\
    state (core w2) = state c /\
    waiting (core w2) = waiting c /\
    Permutation (owning (core w2)) (owning c) /\
    (~ In me (owning c) -> core w2 = c).
Proof.
  intros Ho Hw Hs.
  destruct (list_remove_appended me (owning c)) as [r [Hr [Hp Hnot]]].
  unfold release. run_monad. rewrite Ho, Hr.
  assert (Hst : (if 0 <? state (core w1) then state (core w1) - 1
                 else state (core w1) + 1) = state c).
  { destruct Hs as [[H0 ->]|[H0 ->]].
    - replace (0 <? state c + 1) with true by (symmetry; apply Z.ltb_lt; lia).
      lia.
    - replace (0 <? state c - 1) with false by (symmetry; apply Z.ltb_ge; lia).
      lia. }
  rewrite Hst.
  destruct (state c =? 0);
    eexists; (split; [reflexivity|]); simpl;
    (split; [reflexivity|]); (split; [exact Hw|]); (split; [exact Hp|]);
    intros Hn; apply core_eq; simpl; auto.
Qed.

(** X3.  A successful [acquire_read] or [acquire_write] followed by
    [release] by the same thread, no other thread acting: [release] does not
    raise, [state] and [waiting] are what they were before the acquisition,
    and [owning] holds the same entries as before -- in another order when
    the caller already was in it, since [release] takes out its first entry
    and the acquisition had added the last. *)
Theorem acquire_then_release (fuel : nat) (me : ident) (timeout : option Q)
    (h : handle) (w w1 : World) :
  quiet w ->
  match h with
  | _ReaderLock => acquire_read fuel me timeout w
  | _WriterLock => acquire_write fuel me timeout w
  end = (Return true, w1) ->
  exists w2,
    release me w1 = (Return tt, w2) /\
    state (core w2) = state (core w) /\
    waiting (core w2) = waiting (core w) /\
    Permutation (owning (core w2)) (owning (core w)) /\
    (~ In me (owning (core w)) -> core w2 = core w).
Proof.
  intros Hq E. destruct h.
  - apply (wait_for_spec _ (_acquire_read_leaves_alone me)) in E.
    destruct E as [_ [_ [n [_ [Ht _]]]]]. simpl in Ht.
    specialize (Ht eq_refl). rewrite (run_others_quiet _ _ _ _ Hq) in Ht.
    destruct (admitted_shape me _ _ (or_introl Ht)) as [Ho [Hw Hs]].
    exact (release_after_admission me (core w) w1 Ho Hw Hs).
  - apply acquire_write_spec in E.
    destruct E as [_ [n [_ [Ht _]]]]. simpl in Ht.
    destruct (Ht eq_refl) as [c' [Hp Hc]].
    rewrite (run_others_quiet _ _ _ _ Hq) in Hp.
    destruct (admitted_shape me _ _ (or_intror Hp)) as [Ho [Hw Hs]].
    simpl in Ho, Hw, Hs.
    apply (release_after_admission me (core w) w1).
    + rewrite Hc. exact Ho.
    + rewrite Hc. simpl. lia.
    + rewrite Hc. exact Hs.
Qed.

Lemma acquire_then_release_witness :
  exists w2,
    release 1 (snd (acquire_read 0 1 None
                      (alone {| state := 2; waiting := 3; owning := [1; 2] |})))
      = (Return tt, w2) /\
    state (core w2) = 2 /\
    waiting (core w2) = 3 /\
    Permutation (owning (core w2)) [1; 2].
Proof.
  pose (w := alone {| state := 2; waiting := 3; owning := [1; 2] |}).
  assert (Hq : quiet w) by (intros i c; reflexivity).
  assert (E : acquire_read 0 1 None w =
              (Return true, snd (acquire_read 0 1 None w)))
    by (vm_compute; reflexivity).
  destruct (acquire_then_release 0 1 None _ReaderLock w _ Hq E)
    as [w2 [E2 [Hs [Hw [Hp _]]]]].
  exists w2. split; [exact E2|]. split; [exact Hs|]. split; [exact Hw|].
  exact Hp.
Defined.

(* ================================================================= *)
(** ** Timeouts and waiting writers *)

(** Once the deadline is set, a caller that is never admitted leaves the
    loop at the first reading of the clock that has reached it. *)
Lemma wait_loop_gives_up (p : C bool) (c : LockCore) (e : Q) :
  p c = (Return false, c) ->
  forall (j fuel : nat) (wt : Q) (w : World),
    quiet w -> core w = c -> (j < fuel)%nat ->
    (e <= clock w (ticks w + j)%nat)%Q ->
    exists w',
      wait_loop fuel p (Some e) (Some wt) w = (Return false, w') /\
      core w' = c.
Proof.
  intros Hp. induction j as [|j IH]; intros fuel wt w Hq Hc Hj He;
    (destruct fuel as [|fuel]; [lia|]);
    simpl wait_loop; unfold deadline;
    unfold bind at 1; unfold bind at 1; unfold time_time at 1;
    cbn beta iota;
    destruct (Qle_bool (e - clock w (ticks w)) 0) eqn:Eb;
    unfold ret at 1; cbn beta iota.
  - unfold ret. eexists. split; [reflexivity | exact Hc].
  - exfalso. rewrite Nat.add_0_r in He.
    assert (Hle : Qle_bool (e - clock w (ticks w)) 0 = true)
      by (apply Qle_bool_iff; lra).
    congruence.
  - unfold ret. eexists. split; [reflexivity | exact Hc].
  - unfold bind at 1. rewrite cond_wait_eq.
    unfold bind at 1. rewrite call_eq. simpl.
    rewrite Hq, Hc, Hp. simpl.
    apply IH; [intros i c'; apply Hq | reflexivity | lia |].
    simpl. rewrite <- plus_n_Sm in He. exact He.
Qed.

Lemma wait_for_gives_up (p : C bool) (c : LockCore) (t : Q) (k fuel : nat)
    (w : World) :
  p c = (Return false, c) ->
  quiet w -> core w = c -> (1 <= k)%nat -> (k < fuel)%nat ->
  (clock w (ticks w) + t <= clock w (ticks w + k)%nat)%Q ->
  exists w',
    wait_for fuel p (Some t) w = (Return false, w') /\ core w' = c.
Proof.
  intros Hp Hq Hc Hk Hf Ht.
  destruct fuel as [|fuel]; [lia|]. destruct k as [|k]; [lia|].
  unfold wait_for. unfold bind at 1. rewrite call_eq, Hc, Hp.
  cbn [fst snd]. cbn iota. simpl wait_loop. unfold deadline.
  unfold bind at 1. unfold bind at 1. unfold time_time at 1.
  cbn beta iota. unfold ret at 1.
  unfold bind at 1. rewrite cond_wait_eq.
  unfold bind at 1. rewrite call_eq. simpl. rewrite Hq, Hp. simpl.
  apply (wait_loop_gives_up p c _ Hp k);
    [intros i c'; apply Hq | reflexivity | lia |].
  simpl. rewrite <- plus_n_Sm in Ht. exact Ht.
Qed.

Lemma acquire_write_gives_up (fuel k : nat) (me : ident) (t : Q)
    (w : World) :
  quiet w -> ~ In me (owning (core w)) -> state (core w) <> 0 ->
  (1 <= k)%nat -> (k < fuel)%nat ->
  (clock w (ticks w) + t <= clock w (ticks w + k)%nat)%Q ->
  exists w',
    acquire_write fuel me (Some t) w = (Return false, w') /\
    core w' = core w.
Proof.
  intros Hq Hin Hs Hk Hf Ht.
  assert (Hp : _acquire_write me (add_waiting 1 (core w)) =
               (Return false, add_waiting 1 (core w)))
    by (apply _acquire_write_busy; assumption).
  unfold acquire_write, with_cond.
  unfold bind at 1, get_core. unfold bind at 1, put_core.
  rewrite try_finally_eq.
  destruct (wait_for_gives_up _ _ t k fuel
              (set_core (add_waiting 1 (core w)) w) Hp)
    as [w' [E Hc]]; try assumption; try reflexivity.
  rewrite E. eexists. split; [reflexivity|]. simpl.
  rewrite Hc. apply add_waiting_cancel.
Qed.

Lemma _acquire_read_refused (me : ident) (c : LockCore) :
  ~ In me (owning c) -> state c < 0 \/ waiting c <> 0 ->
  _acquire_read me c = (Return false, c).
Proof.
  intros Hin Hs. unfold _acquire_read.
  destruct (Z.ltb_spec (state c) 0) as [Hlt|Hge].
  - apply _acquire_write_busy; [lia | assumption].
  - destruct Hs as [Hs|Hs]; [lia|].
    apply Z.eqb_neq in Hs. rewrite Hs.
    apply contains_not_In in Hin. now rewrite Hin.
Qed.

Lemma acquire_read_gives_up (fuel k : nat) (me : ident) (t : Q)
    (w : World) :
  quiet w -> ~ In me (owning (core w)) ->
  state (core w) < 0 \/ waiting (core w) <> 0 ->
  (1 <= k)%nat -> (k < fuel)%nat ->
  (clock w (ticks w) + t <= clock w (ticks w + k)%nat)%Q ->
  exists w',
    acquire_read fuel me (Some t) w = (Return false, w') /\
    core w' = core w.
Proof.
  intros Hq Hin Hs Hk Hf Ht.
  pose proof (_acquire_read_refused me (core w) Hin Hs) as Hp.
  unfold acquire_read, with_cond.
  apply (wait_for_gives_up _ _ t k fuel w Hp); try assumption.
  reflexivity.
Qed.

(** X4.  A timed acquisition that cannot be admitted gives up: when no
    other thread acts and the [k]-th later reading of the clock ([k >= 1])
    has reached the first reading plus the timeout, the call returns [False]
    within [k] wake-ups and leaves the core as it found it -- for
    [acquire_write] also [waiting]. *)
Theorem timed_acquire_gives_up (fuel k : nat) (me : ident) (t : Q)
    (w : World) :
  quiet w -> ~ In me (owning (core w)) ->
  (1 <= k)%nat -> (k < fuel)%nat ->
  (clock w (ticks w) + t <= clock w (ticks w + k)%nat)%Q ->
  (state (core w) <> 0 ->
     exists w',
       acquire_write fuel me (Some t) w = (Return false, w') /\
       core w' = core w) /\
  (state (core w) < 0 \/ waiting (core w) <> 0 ->
     exists w',
       acquire_read fuel me (Some t) w = (Return false, w') /\
       core w' = core w).
Proof.
  intros Hq Hin Hk Hf Ht. split; intros Hs.
  - now apply (acquire_write_gives_up fuel k).
  - now apply (acquire_read_gives_up fuel k).
Qed.

Lemma timed_acquire_gives_up_witness :
  (exists w',
     acquire_write 4 1 (Some (3 # 2))
       (alone {| state := 2; waiting := 0; owning := [2; 3] |}) =
       (Return false, w') /\
     core w' = {| state := 2; waiting := 0; owning := [2; 3] |}) /\
  (exists w',
     acquire_read 4 1 (Some (3 # 2))
       (alone {| state := -1; waiting := 0; owning := [2] |}) =
       (Return false, w') /\
     core w' = {| state := -1; waiting := 0; owning := [2] |}).
Proof.
  split.
  - destruct (timed_acquire_gives_up 4 2 1 (3 # 2)
                (alone {| state := 2; waiting := 0; owning := [2; 3] |}))
      as [Hwrite _].
    + intros i c. reflexivity.
    + simpl. intros [H|[H|[]]]; discriminate.
    + lia.
    + lia.
    + simpl. unfold Qle. simpl. lia.
    + apply Hwrite. simpl. lia.
  - destruct (timed_acquire_gives_up 4 2 1 (3 # 2)
                (alone {| state := -1; waiting := 0; owning := [2] |}))
      as [_ Hread].
    + intros i c. reflexivity.
    + simpl. intros [H|[]]. discriminate.
    + lia.
    + lia.
    + simpl. unfold Qle. simpl. lia.
    + apply Hread. left. simpl. lia.
Defined.

(** X5.  A writer that waits holds new readers back.  With the lock in
    shared mode and no other thread acting, [acquire_write] without timeout
    by a thread that holds nothing does not come back, and while it waits
    its unit is in [waiting]: the read-admission predicate then refuses
    every thread that is not yet in [owning] and still admits every thread
    that is. *)
Theorem waiting_writer_holds_back_new_readers (fuel : nat) (me : ident)
    (w : World) :
  quiet w -> 0 < state (core w) -> 0 <= waiting (core w) ->
  ~ In me (owning (core w)) ->
  exists w',
    acquire_write fuel me None w = (Pending, w') /\
    core w' = add_waiting 1 (core w) /\
    (forall r, ~ In r (owning (core w)) ->
       _acquire_read r (core w') = (Return false, core w')) /\
    (forall r, In r (owning (core w)) ->
       fst (_acquire_read r (core w')) = Return true).
Proof.
  intros Hq Hs Hw Hin.
  assert (Hp : _acquire_write me (add_waiting 1 (core w)) =
               (Return false, add_waiting 1 (core w)))
    by (apply _acquire_write_busy; simpl; [lia | assumption]).
  unfold acquire_write, with_cond.
  unfold bind at 1, get_core. unfold bind at 1, put_core.
  rewrite try_finally_eq. unfold wait_for. unfold bind at 1.
  rewrite call_eq. simpl. rewrite Hp. cbn [fst snd]. cbn iota.
  match goal with
  | |- context [wait_loop fuel ?p None None ?w1] =>
      destruct (wait_loop_stays p (add_waiting 1 (core w)) fuel Hp w1)
        as [w' [E Hc]]; [intros i c'; apply Hq | reflexivity |]
  end.
  rewrite E. exists w'. split; [reflexivity|]. split; [exact Hc|].
  rewrite Hc. split.
  - intros r Hr. unfold _acquire_read. simpl.
    replace (state (core w) <? 0) with false by (symmetry; apply Z.ltb_ge; lia).
    replace (waiting (core w) + 1 =? 0) with false
      by (symmetry; apply Z.eqb_neq; lia).
    apply contains_not_In in Hr. now rewrite Hr.
  - intros r Hr. unfold _acquire_read. simpl.
    replace (state (core w) <? 0) with false by (symmetry; apply Z.ltb_ge; lia).
    apply contains_In in Hr. rewrite Hr.
    destruct (waiting (core w) + 1 =? 0); reflexivity.
Qed.

Lemma waiting_writer_holds_back_new_readers_witness :
  exists w',
    acquire_write 3 1 None
      (alone {| state := 1; waiting := 0; owning := [2] |}) =
      (Pending, w') /\
    core w' = {| state := 1; waiting := 0 + 1; owning := [2] |} /\
    _acquire_read 3 (core w') = (Return false, core w') /\
    fst (_acquire_read 2 (core w')) = Return true.
Proof.
  destruct (waiting_writer_holds_back_new_readers 3 1
              (alone {| state := 1; waiting := 0; owning := [2] |}))
    as [w' [E [Hc [Hnew Hold]]]].
  - intros i c. reflexivity.
  - simpl. lia.
  - simpl. lia.
  - simpl. intros [H|[]]. discriminate.
  - exists w'. split; [exact E|]. split; [exact Hc|]. split.
    + apply Hnew. simpl. intros [H|[]]. discriminate.
    + apply Hold. simpl. left. reflexivity.
Defined.

(* ================================================================= *)
(** ** Many readers, one recursive writer *)

Lemma acquire_write_true_at_once (fuel : nat) (me : ident)
    (t : option Q) (w : World) (c' : LockCore) :
  _acquire_write me (add_waiting 1 (core w)) = (Return true, c') ->
  exists w',
    acquire_write fuel me t w = (Return true, w') /\
    core w' = add_waiting (-1) c' /\
    sched w' = sched w /\ others w' = others w /\
    added w w' [EvPredicate].
Proof.
  intros Hp. unfold acquire_write, with_cond.
  unfold bind at 1, get_core. unfold bind at 1, put_core.
  rewrite try_finally_eq. unfold wait_for. unfold bind at 1.
  rewrite call_eq. simpl. rewrite Hp. simpl.
  eexists. split; [reflexivity|]. repeat split.
Qed.

(** X6.  With the lock free or in shared mode and no writer waiting, any
    number of threads get the read lock one after the other, each at its
    first call of the predicate and without waiting: [state] goes up by the
    number of threads and they are appended to [owning] in order. *)
Theorem readers_all_enter (fuel : nat) (threads : list ident) :
  forall w : World,
    0 <= state (core w) -> waiting (core w) = 0 ->
    exists w',
      readers_enter fuel threads w = (Return true, w') /\
      state (core w') = state (core w) + Z.of_nat (List.length threads) /\
      owning (core w') = owning (core w) ++ threads /\
      waiting (core w') = 0 /\
      sched w' = sched w.
Proof.
  induction threads as [|me rest IH]; intros w Hs Hw.
  - exists w. simpl. rewrite app_nil_r, Z.add_0_r. repeat split; assumption.
  - assert (Hp : _acquire_read me (core w) =
                 (Return true,
                  {| state := state (core w) + 1; waiting := waiting (core w);
                     owning := owning (core w) ++ [me] |})).
    { unfold _acquire_read.
      replace (state (core w) <? 0) with false
        by (symmetry; apply Z.ltb_ge; lia).
      rewrite Hw. reflexivity. }
    destruct (wait_for_true_at_once fuel (_acquire_read me) None w)
      as [w1 [E [Hc [_ Hsc]]]]; [now rewrite Hp|].
    rewrite Hp in Hc. simpl in Hc.
    destruct (IH w1) as [w' [E' [Hs' [Ho' [Hw' Hsc']]]]].
    + rewrite Hc. simpl. lia.
    + rewrite Hc. simpl. exact Hw.
    + exists w'. simpl readers_enter. unfold bind at 1.
      unfold acquire_read, with_cond. rewrite E.
      split; [exact E'|]. rewrite Hs', Ho', Hc. simpl List.length.
      simpl. rewrite <- app_assoc. simpl.
      repeat split; try assumption; try lia; congruence.
Qed.

Lemma readers_all_enter_witness :
  exists w',
    readers_enter 0 [5; 6; 5] (alone {| state := 1; waiting := 0;
                                        owning := [4] |}) =
      (Return true, w') /\
    state (core w') = 1 + 3 /\
    owning (core w') = [4] ++ [5; 6; 5].
Proof.
  destruct (readers_all_enter 0 [5; 6; 5]
              (alone {| state := 1; waiting := 0; owning := [4] |}))
    as [w' [E [Hs [Ho _]]]].
  - simpl. lia.
  - reflexivity.
  - exists w'. split; [exact E|]. split; [exact Hs | exact Ho].
Defined.

Lemma write_times_from_depth (fuel : nat) (me : ident) (t : option Q)
    (n : nat) :
  forall (d : nat) (w : World),
    state (core w) = - Z.of_nat d -> owning (core w) = repeat me d ->
    exists w',
      write_times fuel n me t w = (Return true, w') /\
      state (core w') = - Z.of_nat (d + n) /\
      owning (core w') = repeat me (d + n) /\
      waiting (core w') = waiting (core w) /\
      sched w' = sched w.
Proof.
  induction n as [|n IH]; intros d w Hs Ho.
  - exists w. rewrite Nat.add_0_r. repeat split; assumption.
  - assert (Hp : _acquire_write me (add_waiting 1 (core w)) =
                 (Return true,
                  {| state := state (core w) - 1;
                     waiting := waiting (core w) + 1;
                     owning := owning (core w) ++ [me] |})).
    { destruct d as [|d].
      - apply (_acquire_write_free me (add_waiting 1 (core w))).
        simpl. rewrite Hs. reflexivity.
      - apply (_acquire_write_recursive me (add_waiting 1 (core w))).
        + simpl. lia.
        + simpl. rewrite Ho. simpl. now left. }
    destruct (acquire_write_true_at_once fuel me t w _ Hp)
      as [w1 [E [Hc [Hsc _]]]].
    destruct (IH (S d) w1) as [w' [E' [Hs' [Ho' [Hw' Hsc']]]]].
    + rewrite Hc. simpl. lia.
    + rewrite Hc. simpl. rewrite Ho. symmetry. apply repeat_cons.
    + exists w'. simpl write_times. unfold bind at 1. rewrite E.
      split; [exact E'|].
      replace (d + S n)%nat with (S d + n)%nat by lia.
      split; [exact Hs'|]. split; [exact Ho'|].
      rewrite Hw', Hsc', Hc. simpl. split; [lia | exact Hsc].
Qed.

(** X7.  On a free lock one thread gets the write lock [n] times in a row,
    each time at once, whatever the timeout: [state] is [-n] and [owning]
    holds [n] copies of the caller.  [n] calls of [release] then free the
    lock again, and one more raises "cannot release an un-acquired lock". *)
Theorem writer_recursion (fuel n : nat) (me : ident) (timeout : option Q)
    (w : World) :
  state (core w) = 0 -> owning (core w) = [] ->
  exists w1 w2,
    write_times fuel n me timeout w = (Return true, w1) /\
    state (core w1) = - Z.of_nat n /\
    owning (core w1) = repeat me n /\
    sched w1 = sched w /\
    release_times n me w1 = (Return tt, w2) /\
    core w2 = core w /\
    release me w2 =
      (Raise (RuntimeError "cannot release an un-acquired lock"), w2).
Proof.
  intros Hs Ho.
  destruct (write_times_from_depth fuel me timeout n 0%nat w Hs Ho)
    as [w1 [E1 [Hs1 [Ho1 [Hw1 Hsc1]]]]].
  simpl in Hs1, Ho1.
  destruct (release_times_exclusive me n n w1 (le_n n) Hs1 Ho1)
    as [w2 [E2 [Hs2 Ho2]]].
  rewrite Nat.sub_diag in Hs2, Ho2. simpl in Hs2, Ho2.
  assert (Hw2 : waiting (core w2) = waiting (core w1)).
  { clear - E2. revert w1 w2 E2. induction n as [|k IH]; intros w1 w2 E2.
    - simpl in E2. injection E2 as ->. reflexivity.
    - simpl in E2. unfold bind in E2.
      pose proof (release_waiting me w1) as Hr.
      destruct (release me w1) as [[u|e|] w1']; try discriminate.
      simpl in Hr. rewrite <- Hr. now apply IH. }
  exists w1, w2. repeat split; try assumption.
  - apply core_eq; congruence.
  - apply release_absent. rewrite Ho2. intros [].
Qed.

Lemma writer_recursion_witness :
  exists w1 w2,
    write_times 0 3 9 (Some 0%Q) (alone init_core) = (Return true, w1) /\
    state (core w1) = -3 /\
    owning (core w1) = [9; 9; 9] /\
    release_times 3 9 w1 = (Return tt, w2) /\
    core w2 = init_core.
Proof.
  destruct (writer_recursion 0 3 9 (Some 0%Q) (alone init_core))
    as [w1 [w2 [E1 [Hs [Ho [_ [E2 [Hc _]]]]]]]].
  - reflexivity.
  - reflexivity.
  - exists w1, w2. split; [exact E1|]. split; [exact Hs|].
    split; [exact Ho|]. split; [exact E2 | exact Hc].
Defined.

(* ================================================================= *)
(** ** The lock objects *)

Lemma _timeout_rejects (blocking : bool) (timeout : Q) :
  ((timeout < 0)%Q /\ ~ (timeout == -1)%Q) \/
  (blocking = false /\ (0 < timeout)%Q) ->
  exists msg, _timeout blocking timeout = Raise (ValueError msg).
Proof.
  unfold _timeout. intros [[Hneg Hne]|[-> Hpos]].
  - apply Qltb_lt in Hneg. rewrite Hneg.
    destruct (Qeq_bool timeout (-1)) eqn:E.
    + apply Qeq_bool_iff in E. contradiction.
    + simpl. eexists. reflexivity.
  - assert (Hn : Qltb timeout 0 = false)
      by (apply Qltb_ge; now apply Qlt_le_weak).
    rewrite Hn. simpl. apply Qltb_lt in Hpos. rewrite Hpos.
    eexists. reflexivity.
Qed.

(** X8.  [acquire] on either lock object checks its arguments before it
    touches the core: with a negative timeout other than -1, or with a
    positive timeout and [blocking=False], it raises [ValueError] and nothing
    has changed -- no unit in [waiting], no call of the predicate, no wait. *)
Theorem acquire_rejects_bad_arguments (fuel : nat) (h : handle) (me : ident)
    (blocking : bool) (timeout : Q) (w : World) :
  ((timeout < 0)%Q /\ ~ (timeout == -1)%Q) \/
  (blocking = false /\ (0 < timeout)%Q) ->
  exists msg,
    acquire fuel h me blocking timeout w = (Raise (ValueError msg), w).
Proof.
  intros H. destruct (_timeout_rejects blocking timeout H) as [msg E].
  exists msg. unfold acquire, bind, of_outcome. rewrite E. reflexivity.
Qed.

Lemma acquire_rejects_bad_arguments_witness :
  (exists msg,
     acquire 5 _WriterLock 1 true (-7) (alone init_core) =
       (Raise (ValueError msg), alone init_core)) /\
  (exists msg,
     acquire 5 _ReaderLock 1 false (1 # 10) (alone init_core) =
       (Raise (ValueError msg), alone init_core)).
Proof.
  split.
  - apply (acquire_rejects_bad_arguments 5 _WriterLock 1 true (-7)
             (alone init_core)).
    left. split; [reflexivity | discriminate].
  - apply (acquire_rejects_bad_arguments 5 _ReaderLock 1 false (1 # 10)
             (alone init_core)).
    right. split; reflexivity.
Defined.



(** X12.  The timeout translation never hands a negative duration to the
    core: whatever it returns as a bounded wait is [>= 0]. *)
Theorem timeout_never_negative (blocking : bool) (timeout t : Q) :
  _timeout blocking timeout = Return (Some t) -> (0 <= t)%Q.
Proof.
  unfold _timeout.
  destruct (Qltb timeout 0 && negb (Qeq_bool timeout (-1)));
    [discriminate|].
  destruct blocking.
  - destruct (Qle_bool 0 timeout) eqn:E; [|discriminate].
    intros H. injection H as <-. now apply Qle_bool_iff.
  - destruct (Qltb 0 timeout); [discriminate|].
    intros H. injection H as <-. apply Qle_refl.
Qed.

Lemma timeout_never_negative_witness : (0 <= 5 # 2)%Q.
Proof.
  apply (timeout_never_negative true (5 # 2) (5 # 2)). reflexivity.
Defined.

(* ================================================================= *)
(** ** The [with] statement *)

Lemma enter_free (fuel : nat) (h : handle) (me : ident) (w : World) :
  state (core w) = 0 -> owning (core w) = [] ->
  (h = _ReaderLock -> waiting (core w) = 0) ->
  exists w1,
    __enter__ fuel h me w = (Return tt, w1) /\
    core w1 = {| state := match h with _ReaderLock => 1 | _WriterLock => -1 end;
                 waiting := waiting (core w); owning := [me] |}.
Proof.
  intros Hs Ho Hw.
  assert (Ht : _timeout true (-1) = Return None) by reflexivity.
  unfold __enter__, acquire. unfold bind at 1. unfold bind at 1.
  unfold of_outcome. rewrite Ht. destruct h.
  - assert (Hp : _acquire_read me (core w) =
                 (Return true,
                  {| state := state (core w) + 1; waiting := waiting (core w);
                     owning := owning (core w) ++ [me] |})).
    { unfold _acquire_read. rewrite Hs, (Hw eq_refl). reflexivity. }
    destruct (wait_for_true_at_once fuel (_acquire_read me) None w)
      as [w1 [E [Hc _]]]; [now rewrite Hp|].
    unfold acquire_read, with_cond. rewrite E.
    exists w1. split; [reflexivity|].
    rewrite Hc, Hp. simpl. rewrite Hs, Ho. reflexivity.
  - destruct (acquire_write_true_at_once fuel me None w _
                (_acquire_write_free me (add_waiting 1 (core w)) Hs))
      as [w1 [E [Hc _]]].
    rewrite E. exists w1. split; [reflexivity|].
    rewrite Hc. apply core_eq; simpl; rewrite ?Hs, ?Ho; try reflexivity; lia.
Qed.

Lemma release_last (me : ident) (w : World) :
  owning (core w) = [me] ->
  state (core w) = 1 \/ state (core w) = -1 ->
  exists w',
    release me w = (Return tt, w') /\
    core w' = {| state := 0; waiting := waiting (core w); owning := [] |}.
Proof.
  intros Ho Hs. unfold release. run_monad. rewrite Ho. simpl.
  rewrite Z.eqb_refl.
  destruct Hs as [-> | ->]; simpl; eexists; split; reflexivity.
Qed.


(** X10.  [with lock.reader_lock: body] and [with lock.writer_lock: body]
    on a free lock (for the read lock: with no writer waiting): the caller
    is the one owner while the body runs, and when the body leaves the core
    as it found it the lock is free again afterwards, whether the body
    returned or raised; what the body returned or raised is what the
    statement returns or raises. *)
Theorem with_lock_releases {A : Type} (fuel : nat) (h : handle) (me : ident)
    (body : M A) (w : World) :
  state (core w) = 0 -> owning (core w) = [] ->
  (h = _ReaderLock -> waiting (core w) = 0) ->
  (forall w0, core (snd (body w0)) = core w0) ->
  (forall w0, fst (body w0) <> Pending) ->
  exists w1,
    __enter__ fuel h me w = (Return tt, w1) /\
    core w1 = {| state := match h with _ReaderLock => 1 | _WriterLock => -1 end;
                 waiting := waiting (core w); owning := [me] |} /\
    fst (with_lock fuel h me body w) = fst (body w1) /\
    core (snd (with_lock fuel h me body w)) = core w.
Proof.
  intros Hs Ho Hw Hbody Hret.
  destruct (enter_free fuel h me w Hs Ho Hw) as [w1 [E Hc]].
  exists w1. split; [exact E|]. split; [exact Hc|].
  unfold with_lock, bind. rewrite E. unfold try_finally.
  specialize (Hbody w1). specialize (Hret w1).
  destruct (body w1) as [r wb]. simpl in Hbody, Hret.
  destruct (release_last me wb) as [w' [Er Hc']].
  - rewrite Hbody, Hc. reflexivity.
  - rewrite Hbody, Hc. simpl. destruct h; [left | right]; reflexivity.
  - unfold __exit__. rewrite Er.
    assert (Hfree : core w' = core w).
    { rewrite Hc', Hbody, Hc. simpl. apply core_eq; simpl; congruence. }
    destruct r as [a|e|]; [| |congruence]; simpl; split; auto.
Qed.

Lemma with_lock_releases_witness :
  fst (with_lock 0 _WriterLock 1
         (of_outcome (@Raise unit (ValueError "body failed")))
         (alone init_core)) = Raise (ValueError "body failed") /\
  core (snd (with_lock 0 _WriterLock 1
               (of_outcome (@Raise unit (ValueError "body failed")))
               (alone init_core))) = init_core.
Proof.
  destruct (with_lock_releases 0 _WriterLock 1
              (of_outcome (@Raise unit (ValueError "body failed")))
              (alone init_core))
    as [w1 [_ [_ [Hr Hc]]]].
  - reflexivity.
  - reflexivity.
  - discriminate.
  - intros w0. reflexivity.
  - intros w0. discriminate.
  - split; [exact Hr | exact Hc].
Defined.



(* ================================================================= *)
(** ** Every reachable state *)

Lemma run_keeps_others (fuel : nat) (me : ident) (o : op) (w : World) :
  others (snd (run fuel me o w)) = others w.
Proof.
  destruct o as [t|t| | |x]; unfold run.
  - rewrite snd_bind_ret.
    destruct (acquire_read fuel me t w) as [r w'] eqn:E.
    apply (wait_for_spec _ (_acquire_read_leaves_alone me)) in E.
    now destruct E as [Ho _].
  - rewrite snd_bind_ret.
    destruct (acquire_write fuel me t w) as [r w'] eqn:E.
    apply acquire_write_spec in E. now destruct E as [Ho _].
  - rewrite (snd_bind_ret (release me) (fun _ => VNone)).
    unfold release. run_monad.
    destruct (list_remove me (owning (core w))); [|reflexivity].
    match goal with
    | |- context [if ?s =? 0 then _ else _] => destruct (s =? 0)
    end; reflexivity.
  - rewrite snd_bind_ret. unfold _release_save. run_monad.
    destruct (contains me (owning (core w))); reflexivity.
  - rewrite (snd_bind_ret (_acquire_restore fuel me x) (fun _ => VNone)).
    unfold _acquire_restore. unfold bind at 1.
    destruct (acquire_write fuel me None w) as [r w'] eqn:E.
    apply acquire_write_spec in E. destruct E as [Ho _].
    destruct r as [b|e|]; simpl; assumption.
Qed.

(** X13.  Whatever calls threads make one after the other on a lock --
    acquisitions with or without timeout, releases that raise or not,
    [_release_save], [_acquire_restore] with a token that names one thread
    -- and however each call ends, the state reached satisfies the
    invariant of the data model; in particular [owning] has [|state|]
    entries, and when [state < 0] they all name one thread.  Of the other
    threads it is assumed that each of their steps keeps the invariant and
    that they leave in [waiting] the unit of a caller for as long as it is
    inside [acquire_write]. *)
Theorem reachable_states_keep_invariant (fuel : nat)
    (calls : list (ident * op)) :
  forall w : World,
    Forall (fun c => token_ok (snd c)) calls ->
    others_keep_invariant w ->
    others_keep_units fuel calls w ->
    Inv (core w) ->
    Inv (core (run_calls fuel calls w)) /\
    Z.of_nat (List.length (owning (core (run_calls fuel calls w)))) =
      Z.abs (state (core (run_calls fuel calls w))) /\
    (state (core (run_calls fuel calls w)) < 0 ->
       same_thread (owning (core (run_calls fuel calls w)))).
Proof.
  assert (Hmain : forall w : World,
             Forall (fun c => token_ok (snd c)) calls ->
             others_keep_invariant w ->
             others_keep_units fuel calls w ->
             Inv (core w) ->
             Inv (core (run_calls fuel calls w))).
  { induction calls as [|[me o] rest IH]; intros w Htok HK HU HI.
    - exact HI.
    - simpl. simpl in HU. destruct HU as [HU1 HUrest].
      inversion Htok as [|c l Ho Hrest]; subst. apply IH.
      + exact Hrest.
      + intros i c. rewrite run_keeps_others. apply HK.
      + exact HUrest.
      + now apply run_Inv. }
  intros w Htok HK HU HI. pose proof (Hmain w Htok HK HU HI) as H.
  split; [exact H|].
  destruct H as [Hp [Hn [Hz _]]]. split.
  - destruct (Z.lt_trichotomy (state (core (run_calls fuel calls w))) 0)
      as [Hlt|[H0|Hgt]].
    + destruct (Hn Hlt). lia.
    + rewrite (Hz H0), H0. reflexivity.
    + rewrite (Hp Hgt). lia.
  - intros Hlt. now destruct (Hn Hlt).
Qed.

Lemma reachable_states_keep_invariant_witness :
  Inv (core (run_calls 3
               [(3, AcquireRead None); (1, AcquireRead None);
                (3, Release); (1, Release);
                (2, AcquireWrite (Some 0%Q)); (2, AcquireRead None);
                (2, ReleaseSave); (2, AcquireRestore [2; 2])]
               (with_leaving_writer
                  {| state := 0; waiting := 1; owning := [] |}))).
Proof.
  pose (w := with_leaving_writer {| state := 0; waiting := 1; owning := [] |}).
  pose (calls := [(3, AcquireRead None); (1, AcquireRead None);
                  (3, Release); (1, Release);
                  (2, AcquireWrite (Some 0%Q)); (2, AcquireRead None);
                  (2, ReleaseSave); (2, AcquireRestore [2; 2])]).
  assert (HK : others_keep_invariant w).
  { intros [|i] c Hc; unfold w; simpl; [|exact Hc].
    destruct Hc as [Hp [Hn [Hz Hw]]]. unfold Inv, writer_gives_up. simpl.
    split; [exact Hp | split; [exact Hn | split; [exact Hz | lia]]]. }
  apply (reachable_states_keep_invariant 3 calls w).
  - repeat constructor. simpl. apply same_thread_b_spec. reflexivity.
  - exact HK.
  - vm_compute. repeat split; intros i c Hi; lia.
  - apply inv_b_spec. reflexivity.
Defined.

(* ================================================================= *)
(** ** The lock as the mutex of a condition variable *)

(** X14.  In a state that satisfies the invariant, [_is_owned] answers true
    for one thread at most, and for none while the lock is free or in shared
    mode. *)
Theorem is_owned_by_one_thread (a b : ident) (c : LockCore) :
  Inv c -> _is_owned a c = true ->
  state c < 0 /\ In a (owning c) /\ (_is_owned b c = true -> a = b).
Proof.
  intros [_ [Hn _]]. unfold _is_owned. rewrite andb_true_iff.
  intros [Hs Ha]. apply Z.ltb_lt in Hs. apply contains_In in Ha.
  split; [exact Hs|]. split; [exact Ha|].
  rewrite andb_true_iff. intros [_ Hb]. apply contains_In in Hb.
  destruct (Hn Hs) as [_ Hsame]. now apply Hsame.
Qed.

Lemma is_owned_by_one_thread_witness :
  {| state := -2; waiting := 1; owning := [4; 4] |}.(state) < 0 /\
  In 4 [4; 4] /\
  (_is_owned 5 {| state := -2; waiting := 1; owning := [4; 4] |} = true ->
   4 = 5).
Proof.
  apply (is_owned_by_one_thread 4 5
           {| state := -2; waiting := 1; owning := [4; 4] |}).
  - apply inv_b_spec. reflexivity.
  - reflexivity.
Defined.

(** X15.  [_release_save] frees the lock for the others: after it, whatever
    the mode and depth it was called in, the write lock goes at once to any
    thread that asks for it, which is then the one owner. *)
Theorem release_save_frees_the_lock (fuel : nat) (me other : ident)
    (timeout : option Q) (w : World) :
  In me (owning (core w)) ->
  exists w1 w2,
    _release_save me w = (Return (owning (core w)), w1) /\
    acquire_write fuel other timeout w1 = (Return true, w2) /\
    core w2 = {| state := -1; waiting := waiting (core w);
                 owning := [other] |} /\
    _is_owned other (core w2) = true /\
    sched w2 = sched w.
Proof.
  intros Hin. rewrite (_release_save_present me w Hin).
  match goal with
  | |- context [(Return (owning (core w)), ?w1')] => set (w1 := w1')
  end.
  destruct (acquire_write_true_at_once fuel other timeout w1 _
              (_acquire_write_free other (add_waiting 1 (core w1)) eq_refl))
    as [w2 [E [Hc [Hsc _]]]].
  assert (Hcore : core w2 = {| state := -1; waiting := waiting (core w);
                               owning := [other] |}).
  { rewrite Hc. apply core_eq; simpl; try reflexivity. lia. }
  exists w1, w2. split; [reflexivity|]. split; [exact E|].
  split; [exact Hcore|]. split; [|exact Hsc].
  rewrite Hcore. unfold _is_owned. simpl. now rewrite Z.eqb_refl.
Qed.

Lemma release_save_frees_the_lock_witness :
  exists w1 w2,
    _release_save 1 (alone {| state := -2; waiting := 0; owning := [1; 1] |})
      = (Return [1; 1], w1) /\
    acquire_write 0 2 (Some 0%Q) w1 = (Return true, w2) /\
    core w2 = {| state := -1; waiting := 0; owning := [2] |} /\
    _is_owned 2 (core w2) = true.
Proof.
  destruct (release_save_frees_the_lock 0 1 2 (Some 0%Q)
              (alone {| state := -2; waiting := 0; owning := [1; 1] |}))
    as [w1 [w2 [E1 [E2 [Hc [Ho _]]]]]].
  - simpl. left. reflexivity.
  - exists w1, w2. split; [exact E1|]. split; [exact E2|].
    split; [exact Hc | exact Ho].
Defined.
